(** * HomeKitty: capability mapping engine and exposure ledger

    A shallow embedding of [lib/mapped-device.js] (class [MappedDevice]) and
    of the application module that owns the exposure ledger
    ([StorageBackedMap], [addDeviceToHomeKit]).

    Conventions of the embedding:
    - JavaScript primitives are values of [jsval]; numbers are integers.
    - A plain JavaScript object used as a dictionary is an association list
      in insertion order, read through [Object_keys] / [Object_entries],
      which enumerate array-index keys first (ascending) and then the other
      keys in insertion order.  The objects that the grouper itself fills
      ([acc], [acc.seen], [acc.groups]) are object literals: reading or
      testing a property on them also finds the names inherited from
      [Object.prototype], and assigning to [__proto__] replaces the prototype
      instead of adding a property.  The objects that come from outside (the
      capability maps, [capabilitiesObj]) are read by their own properties.
    - A string of the source is a [string]; its [length] counts code units.
    - Code that can throw returns a [res]; code that mutates [this] threads
      the handle explicitly. *)

From Stdlib Require Import ZArith NArith String Ascii List Bool Lia.
From stdpp Require Import base option gmap strings list sorting.

Open Scope string_scope.
Open Scope list_scope.

(** ** JavaScript values *)

Inductive jsval : Type :=
| VUndefined
| VNull
| VBool (b : bool)
| VNum (n : Z)
| VStr (s : string)
| VSymbol (description : string).

#[global] Instance jsval_eq_dec : EqDecision jsval.
Proof. solve_decision. Defined.

(** [!!v] / the condition of [if (v)]. *)
Definition truthy (v : jsval) : bool :=
  match v with
  | VUndefined | VNull => false
  | VBool b => b
  | VNum n => negb (n =? 0)%Z
  | VStr s => negb (String.eqb s "")
  | VSymbol _ => true
  end.

(** [a || b] *)
Definition js_or (a b : jsval) : jsval := if truthy a then a else b.

(** [a ?? b] *)
Definition js_nullish (a b : jsval) : jsval :=
  match a with
  | VUndefined | VNull => b
  | _ => a
  end.

(** [a !== b] on primitives. *)
Definition strict_neq (a b : jsval) : bool := bool_decide (a ≠ b).

(** ** Exceptions *)

Inductive error : Type :=
| MissingCapabilityValue (capability : string)
| TypeError (what : string)
| HapError (what : string)
| UserError (what : string).

Inductive res (A : Type) : Type :=
| Ok (a : A)
| Throw (e : error).
Arguments Ok {A} a.
Arguments Throw {A} e.

Definition res_bind {A B} (m : res A) (k : A → res B) : res B :=
  match m with
  | Ok a => k a
  | Throw e => Throw e
  end.

(** ** Strings *)

(** [s.split(sep)] for a one-character separator. *)
Fixpoint split (sep : ascii) (s : string) : list string :=
  match s with
  | EmptyString => [ EmptyString ]
  | String c s' =>
      if decide (c = sep) then EmptyString :: split sep s'
      else match split sep s' with
           | [] => [ String c EmptyString ]
           | w :: ws => String c w :: ws
           end
  end.

(** [s.startsWith(p)] *)
Fixpoint startsWith (p s : string) : bool :=
  match p, s with
  | EmptyString, _ => true
  | String a p', String b s' => if decide (a = b) then startsWith p' s' else false
  | String _ _, EmptyString => false
  end.

(** [s.replace(/^p/, '')] for a literal prefix [p]. *)
Fixpoint drop_string (n : nat) (s : string) : string :=
  match n, s with
  | O, _ => s
  | S n', String _ s' => drop_string n' s'
  | S _, EmptyString => EmptyString
  end.

Definition strip_prefix (p s : string) : string :=
  if startsWith p s then drop_string (String.length p) s else s.

(** ** Plain objects used as dictionaries *)

Section Objects.
Context {V : Type}.

(** [o[k]] on own properties. *)
Fixpoint obj_get (o : list (string * V)) (k : string) : option V :=
  match o with
  | [] => None
  | (k', v) :: o' => if decide (k' = k) then Some v else obj_get o' k
  end.

(** [o[k] = v]: an existing key keeps its position. *)
Fixpoint obj_set (o : list (string * V)) (k : string) (v : V) : list (string * V) :=
  match o with
  | [] => [ (k, v) ]
  | (k', v') :: o' =>
      if decide (k' = k) then (k, v) :: o' else (k', v') :: obj_set o' k v
  end.
End Objects.

(** The names that every object literal inherits from [Object.prototype]. *)
Definition Object_prototype : list string :=
  [ "constructor"; "__defineGetter__"; "__defineSetter__"; "hasOwnProperty";
    "__lookupGetter__"; "__lookupSetter__"; "isPrototypeOf"; "propertyIsEnumerable";
    "toString"; "valueOf"; "__proto__"; "toLocaleString" ].

(** What [o[k]] finds on an object literal: an own property, or else a
    member of [Object.prototype] (a function, or the prototype itself for
    [__proto__]: truthy, and without the properties of the values stored). *)
Inductive looked_up (V : Type) : Type :=
| Own (v : V)
| Inherited
| Undefined.
Arguments Own {V} v.
Arguments Inherited {V}.
Arguments Undefined {V}.

Definition obj_lookup {V} (o : list (string * V)) (k : string) : looked_up V :=
  match obj_get o k with
  | Some v => Own v
  | None => if decide (k ∈ Object_prototype) then Inherited else Undefined
  end.

(** [k in o] on an object literal whose own keys are the set [own]. *)
Definition obj_in (own : gset string) (k : string) : Prop :=
  k ∈ own ∨ k ∈ Object_prototype.

#[global] Instance obj_in_dec own k : Decision (obj_in own k).
Proof. unfold obj_in. apply _. Defined.

(** [o[k] = v] on an object literal, for an object [v]: [__proto__] is the
    accessor of [Object.prototype], its setter replaces the prototype of [o]
    and no own property is added; any other key is set as usual. *)
Definition obj_assign {V} (o : list (string * V)) (k : string) (v : V)
  : list (string * V) :=
  if decide (k = "__proto__") then o else obj_set o k v.

Definition digit_of (c : ascii) : option N :=
  let n := N_of_ascii c in
  if ((48 <=? n) && (n <=? 57))%N then Some (n - 48)%N else None.

Fixpoint digits_val (acc : N) (s : string) : option N :=
  match s with
  | EmptyString => Some acc
  | String c s' =>
      match digit_of c with
      | Some d => digits_val (10 * acc + d)%N s'
      | None => None
      end
  end.

(** A key is an array index when it is the canonical decimal form of an
    integer below 2^32 - 1. *)
Definition array_index (s : string) : option N :=
  match s with
  | EmptyString => None
  | String c EmptyString => digit_of c
  | String c _ =>
      if decide (c = "0"%char) then None
      else match digits_val 0 s with
           | Some n => if (n <? 4294967295)%N then Some n else None
           | None => None
           end
  end.

(** Stable sort by a numeric key: the model of [Array.prototype.sort] with
    a comparator [(a, b) => key(a) - key(b)]. *)
Section SortBy.
Context {A : Type} (key : A → N).

Fixpoint insert_by (x : A) (l : list A) : list A :=
  match l with
  | [] => [ x ]
  | y :: l' => if (key x <=? key y)%N then x :: l else y :: insert_by x l'
  end.

Definition sort_by (l : list A) : list A := foldr insert_by [] l.

(** The order that the comparator induces. *)
Definition key_le (x y : A) : Prop := (key x ≤ key y)%N.
End SortBy.

Definition index_key (s : string) : N := default 0%N (array_index s).

(** [Object.keys(o)] *)
Definition Object_keys {V} (o : list (string * V)) : list string :=
  let ks := o.*1 in
  sort_by index_key (filter (λ k, is_Some (array_index k)) ks)
    ++ filter (λ k, ¬ is_Some (array_index k)) ks.

(** [Object.entries(o)] *)
Definition Object_entries {V} (o : list (string * V)) : list (string * V) :=
  omap (λ k, (λ v, (k, v)) <$> obj_get o k) (Object_keys o).

(** ** Capability grouper *)

(** [const [ capability, group = '' ] = cap.split('.')] *)
Definition split_capability (cap : string) : string * string :=
  match split "."%char cap with
  | capability :: group :: _ => (capability, group)
  | [ capability ] => (capability, EmptyString)
  | [] => (EmptyString, EmptyString)
  end.

Record Component := { comp_capabilities : list string }.

Record UI := { ui_components : option (list Component) }.

(** The reducer of [groupCapabilities]:
    [if (! acc[group]) acc[group] = []; acc[group].push(capability)].
    A group key that [Object.prototype] defines is found there, so no list
    is made for it and [push] is missing. *)
Definition group_step (acc : list (string * list string)) (cap : string)
  : res (list (string * list string)) :=
  let '(capability, group) := split_capability cap in
  let acc := match obj_lookup acc group with
             | Undefined => obj_set acc group []
             | _ => acc
             end in
  match obj_lookup acc group with
  | Own l => Ok (obj_set acc group (l ++ [ capability ]))
  | Inherited => Throw (TypeError "acc[group].push is not a function")
  | Undefined => Throw (TypeError "Cannot read properties of undefined (reading 'push')")
  end.

(** [l.reduce(f, b)] for a reducer that can throw. *)
Fixpoint reduce {A B} (f : B → A → res B) (l : list A) (b : B) : res B :=
  match l with
  | [] => Ok b
  | x :: l' => res_bind (f b x) (reduce f l')
  end.

(** [device.ui?.components?.map(c => c.capabilities).flat() || []] *)
Definition visible_capabilities (ui : option UI) : list string :=
  match ui with
  | Some u =>
      match ui_components u with
      | Some cs => concat (comp_capabilities <$> cs)
      | None => []
      end
  | None => []
  end.

Definition groupCapabilities_of (ui : option UI) : res (list (string * list string)) :=
  reduce group_step (visible_capabilities ui) [].

Definition sort_by_length (ks : list string) : list string :=
  sort_by (λ k, N.of_nat (String.length k)) ks.

Record flat_acc := {
  fa_groups : list (string * list string);
  fa_seen : gset string
}.

Definition caps_of (o : list (string * list string)) (g : string) : list string :=
  default [] (obj_get o g).

(** The reducer of [flattenGroups]: the filter [! (cap in acc.seen)] runs
    over the whole group before the map marks the survivors as seen, and the
    result is assigned to [acc.groups[group]]. *)
Definition flatten_step (groups : list (string * list string))
  (acc : flat_acc) (group : string) : flat_acc :=
  let kept := filter (λ cap, ¬ obj_in (fa_seen acc) cap) (caps_of groups group) in
  {| fa_groups := obj_assign (fa_groups acc) group kept;
     fa_seen := fa_seen acc ∪ list_to_set kept |}.

Definition flattenGroups (groups : list (string * list string))
  : list (string * list string) :=
  let groupNames := sort_by_length (Object_keys groups) in
  fa_groups (foldl (flatten_step groups) {| fa_groups := []; fa_seen := ∅ |} groupNames).

(** ** Exposure ledger: [class StorageBackedMap extends Map] *)

Module StorageBackedMap.

(** The inherited [Map] ([entries]), the private [#dirty] flag, and the
    external persistence sink [#onSave], kept as the list of snapshots it
    has been called with (oldest first). *)
Record t := {
  entries : gmap string jsval;
  dirty : bool;
  saved : list (gmap string jsval)
}.

Definition get (m : t) (key : string) : jsval :=
  default VUndefined (entries m !! key).

Definition has (m : t) (key : string) : bool :=
  bool_decide (is_Some (entries m !! key)).

Definition isDirty (m : t) : bool := dirty m.

Definition set (m : t) (key : string) (value : jsval) : t :=
  {| entries := <[key := value]> (entries m);
     dirty := dirty m || strict_neq (get m key) value;
     saved := saved m |}.

Definition delete (m : t) (key : string) : t :=
  {| entries := base.delete key (entries m);
     dirty := dirty m || has m key;
     saved := saved m |}.

Definition save (m : t) : t :=
  if dirty m then
    {| entries := entries m; dirty := false; saved := saved m ++ [ entries m ] |}
  else m.

Definition keys (m : t) : list string := (map_to_list (entries m)).*1.

Definition setAll (m : t) (value : jsval) : t :=
  save (foldl (λ m key, set m key value) m (keys m)).

(** [new StorageBackedMap(data, onSave)]; [data] may be missing. *)
Definition new (data : option (list (string * jsval))) : t :=
  let loaded :=
    foldl (λ m kv, set m kv.1 kv.2)
          {| entries := ∅; dirty := false; saved := [] |}
          (default [] data) in
  {| entries := entries loaded; dirty := false; saved := [] |}.

End StorageBackedMap.

(** ** Devices of the source platform *)

Record Device := {
  dev_id : string;
  dev_name : string;
  dev_class : string;
  dev_driverId : option string;
  dev_zoneName : option string;
  dev_ready : bool;
  dev_capabilities : list string;
  (** [capabilitiesObj[capability].value], when the object exists *)
  dev_capabilitiesObj : option (gmap string jsval);
  dev_ui : option UI;
  (** the writes requested through [setCapabilityValue], oldest first *)
  dev_requests : list (string * jsval)
}.

Definition set_capabilitiesObj (o : option (gmap string jsval)) (d : Device) : Device :=
  {| dev_id := dev_id d; dev_name := dev_name d; dev_class := dev_class d;
     dev_driverId := dev_driverId d; dev_zoneName := dev_zoneName d;
     dev_ready := dev_ready d; dev_capabilities := dev_capabilities d;
     dev_capabilitiesObj := o; dev_ui := dev_ui d;
     dev_requests := dev_requests d |}.

Definition push_request (capability : string) (value : jsval) (d : Device) : Device :=
  {| dev_id := dev_id d; dev_name := dev_name d; dev_class := dev_class d;
     dev_driverId := dev_driverId d; dev_zoneName := dev_zoneName d;
     dev_ready := dev_ready d; dev_capabilities := dev_capabilities d;
     dev_capabilitiesObj := dev_capabilitiesObj d; dev_ui := dev_ui d;
     dev_requests := dev_requests d ++ [ (capability, value) ] |}.

(** [device.capabilitiesObj?.[capability]?.value] *)
Definition capability_value (d : Device) (capability : string) : jsval :=
  match dev_capabilitiesObj d with
  | Some o => default VUndefined (o !! capability)
  | None => VUndefined
  end.

(** [updateCapability(capability, value)] on the handle's device. *)
Definition updateCapability (capability : string) (value : jsval) (d : Device) : Device :=
  let capabilitiesObj := default ∅ (dev_capabilitiesObj d) in
  set_capabilitiesObj (Some (<[capability := value]> capabilitiesObj)) d.

(** ** The target protocol's object model

    The accessory, its services and their characteristics are objects of the
    [hap-nodejs] library; a function installed on one of them is kept as the
    data its closure captures. *)

(** The context object handed to a getter or setter; the service is named
    by its position in the accessory. *)
Record Ctx := {
  ctx_device : Device;
  ctx_service : nat;
  ctx_capability : option string;
  ctx_characteristic : string
}.

(** A getter or setter of the map catalogue (an [async] function: a rejected
    promise is a [Throw]). *)
Definition Fn : Type := jsval → Ctx → res jsval.

(** Modelled from the spec: the [debounce] package (a dependency, not part of
    the sources) as section 4.3 describes it.  In leading-edge (immediate)
    mode every call propagates at once; in trailing-edge mode a call is held,
    a later call replaces it, and the held call fires when the timer elapses. *)
Record Debounce := {
  db_wait : jsval;
  db_immediate : bool;
  db_pending : option jsval
}.

(** [debounce(fn, wait, immediate)]: nothing is held at first. *)
Definition debounce (wait : jsval) (immediate : bool) : Debounce :=
  {| db_wait := wait; db_immediate := immediate; db_pending := None |}.

(** Modelled from the spec: calling the debounced function gives its new
    state and the argument the wrapped function is invoked with now, if it
    is. *)
Definition db_call (d : Debounce) (v : jsval) : Debounce * option jsval :=
  if db_immediate d then (d, Some v)
  else ({| db_wait := db_wait d; db_immediate := false; db_pending := Some v |}, None).

(** Modelled from the spec: the timer of the debounced function elapses and
    the held call, if any, fires. *)
Definition db_timer (d : Debounce) : Debounce * option jsval :=
  ({| db_wait := db_wait d; db_immediate := db_immediate d; db_pending := None |},
   db_pending d).

(** The function given to [characteristic.onGet]. *)
Record ReadHandler := {
  rh_capability : string;
  rh_getter : Fn;
  rh_service : nat;
  rh_characteristic : string
}.

(** The debounced function given to [characteristic.onSet]. *)
Record WriteHandler := {
  wh_capability : string;
  wh_setter : Fn;
  wh_service : nat;
  wh_characteristic : string;
  wh_debounce : Debounce
}.

(** The listener given to [characteristic.on('change', ...)]. *)
Record ChangeListener := {
  cl_map : string;
  cl_capability : string;
  cl_service : nat
}.

Record Characteristic := {
  ch_type : string;
  ch_value : jsval;
  ch_onGet : option ReadHandler;
  ch_onSet : option WriteHandler;
  ch_change : list ChangeListener
}.

Record Service := {
  svc_type : string;
  svc_displayName : string;
  svc_subtype : option string;
  svc_characteristics : list Characteristic
}.

Record Accessory := {
  acc_displayName : string;
  acc_UUID : string;
  acc_category : jsval;
  acc_identify : bool;
  acc_services : list Service;
  acc_controllers : list string
}.

(** The parts of the collaborators that the sources call but do not define. *)
Class Externals := {
  (** [uuid.generate] *)
  uuid_generate : string → string;
  (** [characteristic.validateUserInput], by characteristic type *)
  validateUserInput : string → jsval → res jsval;
  (** [new AdaptiveLightingController(service, ...)] followed by
      [accessory.configureController]: the accessory with the controller
      attached, or the exception of either *)
  configureAdaptiveLighting : Accessory → nat → Device → res Accessory
}.

(** Modelled from the spec: [Constants.NO_VALUE] of the mapper (the constants
    module is not part of the sources), the designated "no value" sentinel. *)
Definition NO_VALUE : jsval := VSymbol "NO_VALUE".

Definition new_characteristic (klass : string) : Characteristic :=
  {| ch_type := klass; ch_value := VUndefined; ch_onGet := None;
     ch_onSet := None; ch_change := [] |}.

Definition has_characteristic (klass : string) (s : Service) : bool :=
  bool_decide (klass ∈ ch_type <$> svc_characteristics s).

Definition set_characteristics (cs : list Characteristic) (s : Service) : Service :=
  {| svc_type := svc_type s; svc_displayName := svc_displayName s;
     svc_subtype := svc_subtype s; svc_characteristics := cs |}.

(** Modelled from the spec: [service.getCharacteristic(klass)] of the target
    protocol ("characteristic lookup by type"): the characteristic of that
    type, added first when the service has none. *)
Definition ensure_characteristic (klass : string) (s : Service) : Service :=
  if has_characteristic klass s then s
  else set_characteristics (svc_characteristics s ++ [ new_characteristic klass ]) s.

Fixpoint update_first (klass : string) (f : Characteristic → Characteristic)
  (cs : list Characteristic) : list Characteristic :=
  match cs with
  | [] => []
  | c :: cs' =>
      if decide (ch_type c = klass) then f c :: cs' else c :: update_first klass f cs'
  end.

Fixpoint find_first (klass : string) (cs : list Characteristic) : option Characteristic :=
  match cs with
  | [] => None
  | c :: cs' => if decide (ch_type c = klass) then Some c else find_first klass cs'
  end.

Definition find_characteristic (klass : string) (s : Service) : option Characteristic :=
  find_first klass (svc_characteristics s).

Definition set_services (ss : list Service) (a : Accessory) : Accessory :=
  {| acc_displayName := acc_displayName a; acc_UUID := acc_UUID a;
     acc_category := acc_category a; acc_identify := acc_identify a;
     acc_services := ss; acc_controllers := acc_controllers a |}.

(** Modelled from the spec: [accessory.getService(type)] ("service lookup by
    type"): the first service of that type. *)
Definition getService (a : Accessory) (type : string) : option nat :=
  fst <$> list_find (λ s, svc_type s = type) (acc_services a).

(** Modelled from the spec: [accessory.addService(type, displayName, subtype)]
    ("creation by type plus an instance discriminator string"): a second
    service of one type must differ in its discriminator. *)
Definition addService (a : Accessory) (type displayName subtype : string)
  : res (nat * Accessory) :=
  if bool_decide (Exists (λ s, svc_type s = type ∧ svc_subtype s = Some subtype)
                         (acc_services a))
  then Throw (HapError "Cannot add a Service with the same UUID and subtype as another Service")
  else Ok (length (acc_services a),
           set_services (acc_services a ++
             [ {| svc_type := type; svc_displayName := displayName;
                  svc_subtype := Some subtype; svc_characteristics := [] |} ]) a).

(** ** Capability maps (consumed from the external catalogue) *)

(** A value that the schema allows to be given alone or as an array; [flat1]
    is [[x].flat()]. *)
Inductive OneOrMany (A : Type) : Type :=
| One (a : A)
| Many (l : list A).
Arguments One {A} a.
Arguments Many {A} l.

Definition flat1 {A} (x : OneOrMany A) : list A :=
  match x with
  | One a => [ a ]
  | Many l => l
  end.

(** The [get] / [set] field of a binding: absent, one function, or an array
    whose entries may be missing. *)
Inductive Fns : Type :=
| NoFn
| OneFn (f : Fn)
| ManyFn (fs : list (option Fn)).

Definition flat_fns (x : Fns) : list (option Fn) :=
  match x with
  | NoFn => [ None ]
  | OneFn f => [ Some f ]
  | ManyFn fs => fs
  end.

Record CharacteristicMap := {
  cm_characteristics : OneOrMany string;
  cm_get : Fns;
  cm_set : Fns;
  cm_debounce : jsval
}.

Record CapabilityMap := {
  map_name : string;
  map_category : jsval;
  map_group : bool;
  map_service : string;
  map_adaptiveLighting : bool;
  map_required : option (gmap string (OneOrMany CharacteristicMap));
  map_optional : option (gmap string (OneOrMany CharacteristicMap));
  map_triggers : option (gmap string (OneOrMany CharacteristicMap));
  map_onService : option (Service → Device → Service);
  map_onUpdate : bool
}.

(** [table?.[prefix]] *)
Definition binding_of (table : option (gmap string (OneOrMany CharacteristicMap)))
  (prefix : string) : option (OneOrMany CharacteristicMap) :=
  match table with
  | Some t => t !! prefix
  | None => None
  end.

(** [a || b] on values that are truthy whenever present. *)
Definition first_of {A} (a b : option A) : option A :=
  match a with
  | Some _ => a
  | None => b
  end.

(** ** The mapped-device handle *)

Inductive LogMsg : Type :=
| LogIdentify
| LogMap (name : string)
| LogGroup (group : string) (capabilities : list string)
| LogNewService (service : string)
| LogExistingService (service : string)
| LogBinding (capability : string) (isTrigger : bool) (klass : string) (debounceTimeout : jsval)
| LogAdaptiveLightingEnabled
| LogAdaptiveLightingSkipped
| LogAdaptiveLightingError (e : error)
| LogCapabilityUpdate (capability : string) (raw : jsval).

(** What [device.makeCapabilityInstance(capability, callback)] returns, with
    the data captured by the debounced callback it was given. *)
Record CapabilityInstance := {
  ci_capability : string;
  ci_getter : option Fn;
  ci_service : nat;
  ci_characteristics : list string;
  ci_debounce : Debounce;
  ci_destroyed : bool
}.

Record MappedDevice := {
  md_device : Device;
  md_class : string;
  md_capabilities : list string;
  md_category : jsval;
  md_maps : list CapabilityMap;
  md_accessory : option Accessory;
  md_listeners : list CapabilityInstance;
  (** the lines handed to [#logger], with their indent *)
  md_log : list (nat * LogMsg)
}.

Definition set_md_device (d : Device) (h : MappedDevice) : MappedDevice :=
  {| md_device := d; md_class := md_class h; md_capabilities := md_capabilities h;
     md_category := md_category h; md_maps := md_maps h;
     md_accessory := md_accessory h; md_listeners := md_listeners h;
     md_log := md_log h |}.

Definition set_md_accessory (a : option Accessory) (h : MappedDevice) : MappedDevice :=
  {| md_device := md_device h; md_class := md_class h;
     md_capabilities := md_capabilities h; md_category := md_category h;
     md_maps := md_maps h; md_accessory := a; md_listeners := md_listeners h;
     md_log := md_log h |}.

Definition set_md_listeners (ls : list CapabilityInstance) (h : MappedDevice) : MappedDevice :=
  {| md_device := md_device h; md_class := md_class h;
     md_capabilities := md_capabilities h; md_category := md_category h;
     md_maps := md_maps h; md_accessory := md_accessory h; md_listeners := ls;
     md_log := md_log h |}.

Definition set_md_log (l : list (nat * LogMsg)) (h : MappedDevice) : MappedDevice :=
  {| md_device := md_device h; md_class := md_class h;
     md_capabilities := md_capabilities h; md_category := md_category h;
     md_maps := md_maps h; md_accessory := md_accessory h;
     md_listeners := md_listeners h; md_log := l |}.

(** [groupCapabilities()] *)
Definition groupCapabilities (h : MappedDevice) : res (list (string * list string)) :=
  groupCapabilities_of (dev_ui (md_device h)).

(** ** Methods that mutate the handle: state and exceptions *)

(** A method body: it may throw, and the mutations made before the throw
    stay. *)
Definition M (A : Type) : Type := MappedDevice → res A * MappedDevice.

#[global] Instance M_ret : MRet M := λ A a h, (Ok a, h).

#[global] Instance M_bind : MBind M := λ A B k m h,
  match m h with
  | (Ok a, h') => k a h'
  | (Throw e, h') => (Throw e, h')
  end.

Definition throw {A} (e : error) : M A := λ h, (Throw e, h).

Definition modify (f : MappedDevice → MappedDevice) : M unit := λ h, (Ok (), f h).

Definition read {A} (f : MappedDevice → A) : M A := λ h, (Ok (f h), h).

(** A method that reads [this] and may throw. *)
Definition attempt {A} (f : MappedDevice → res A) : M A := λ h, (f h, h).

(** [for (const x of l) body(x)] *)
Fixpoint for_each {A} (body : A → M unit) (l : list A) : M unit :=
  match l with
  | [] => mret ()
  | x :: l' => body x ≫= λ _, for_each body l'
  end.

(** A loop that carries a local variable. *)
Fixpoint for_fold {A S} (body : S → A → M S) (s : S) (l : list A) : M S :=
  match l with
  | [] => mret s
  | x :: l' => body s x ≫= λ s', for_fold body s' l'
  end.

(** [xs.map(f)] for an [f] with effects. *)
Fixpoint map_each {A B} (f : A → M B) (l : list A) : M (list B) :=
  match l with
  | [] => mret []
  | x :: l' => f x ≫= λ y, map_each f l' ≫= λ ys, mret (y :: ys)
  end.

(** [this.log(indent, msg)] *)
Definition log (indent : nat) (msg : LogMsg) : M unit :=
  modify (λ h, set_md_log (md_log h ++ [ (indent, msg) ]) h).

(** ** The capability-to-characteristic binder *)

Definition set_ch_value (v : jsval) (c : Characteristic) : Characteristic :=
  {| ch_type := ch_type c; ch_value := v; ch_onGet := ch_onGet c;
     ch_onSet := ch_onSet c; ch_change := ch_change c |}.

(** [characteristic.onGet(handler)]: one handler, a later call replaces it. *)
Definition set_ch_onGet (rh : ReadHandler) (c : Characteristic) : Characteristic :=
  {| ch_type := ch_type c; ch_value := ch_value c; ch_onGet := Some rh;
     ch_onSet := ch_onSet c; ch_change := ch_change c |}.

(** [characteristic.onSet(handler)] *)
Definition set_ch_onSet (wh : WriteHandler) (c : Characteristic) : Characteristic :=
  {| ch_type := ch_type c; ch_value := ch_value c; ch_onGet := ch_onGet c;
     ch_onSet := Some wh; ch_change := ch_change c |}.

(** [characteristic.on('change', listener)]: listeners accumulate. *)
Definition add_ch_change (cl : ChangeListener) (c : Characteristic) : Characteristic :=
  {| ch_type := ch_type c; ch_value := ch_value c; ch_onGet := ch_onGet c;
     ch_onSet := ch_onSet c; ch_change := ch_change c ++ [ cl ] |}.

Definition update_characteristic (klass : string) (f : Characteristic → Characteristic)
  (s : Service) : Service :=
  set_characteristics (update_first klass f (svc_characteristics s)) s.

(** [service.setCharacteristic(klass, value)] *)
Definition setCharacteristic (klass : string) (v : jsval) (s : Service) : Service :=
  update_characteristic klass (set_ch_value v) (ensure_characteristic klass s).

(** Modelled from the spec: [new Accessory(name, UUID, category)] of the
    target protocol ("accessory construction by stable identifier"); a new
    accessory carries its information service. *)
Definition new_Accessory (displayName UUID : string) (category : jsval) : Accessory :=
  {| acc_displayName := displayName; acc_UUID := UUID; acc_category := category;
     acc_identify := false;
     acc_services :=
       [ setCharacteristic "Name" (VStr displayName)
           {| svc_type := "AccessoryInformation"; svc_displayName := displayName;
              svc_subtype := None; svc_characteristics := [] |} ];
     acc_controllers := [] |}.

Definition set_identify (a : Accessory) : Accessory :=
  {| acc_displayName := acc_displayName a; acc_UUID := acc_UUID a;
     acc_category := acc_category a; acc_identify := true;
     acc_services := acc_services a; acc_controllers := acc_controllers a |}.

Section Binder.
Context `{Externals}.

(** [createAccessory()] *)
Definition createAccessory (h : MappedDevice) : res Accessory :=
  let d := md_device h in
  let accessory :=
    set_identify (new_Accessory (dev_name d) (uuid_generate (dev_id d)) (md_category h)) in
  let zone := match dev_zoneName d with
              | Some z => if decide (z = "") then "onbekende zone" else z
              | None => "onbekende zone"
              end in
  match getService accessory "AccessoryInformation" with
  | None => Throw (TypeError "getService(...) is undefined")
  | Some i =>
      match acc_services accessory !! i with
      | None => Throw (TypeError "getService(...) is undefined")
      | Some info =>
          let info :=
            setCharacteristic "SerialNumber" (VStr (dev_id d))
              (setCharacteristic "Model" (VStr (dev_name d +:+ " (" +:+ zone +:+ ")"))
                (setCharacteristic "Manufacturer"
                   (VStr (strip_prefix "homey:app:" (default "undefined" (dev_driverId d))))
                   info)) in
          Ok (set_services (<[i := info]> (acc_services accessory)) accessory)
      end
  end.

(** An operation on the accessory object held in [#accessory]. *)
Definition with_accessory {A} (f : Accessory → res (A * Accessory)) : M A := λ h,
  match md_accessory h with
  | Some a =>
      match f a with
      | Ok (x, a') => (Ok x, set_md_accessory (Some a') h)
      | Throw e => (Throw e, h)
      end
  | None => (Throw (TypeError "accessory is null"), h)
  end.

Definition modify_service (service : nat) (f : Service → Service) : M unit :=
  with_accessory (λ a,
    match acc_services a !! service with
    | Some s => Ok ((), set_services (<[service := f s]> (acc_services a)) a)
    | None => Throw (TypeError "service is undefined")
    end).

(** The callback of [.map(klass => ...)] in [accessorize]: fetch the
    characteristic and install the change listener and the handlers. *)
Definition bind_characteristic (map : CapabilityMap) (service : nat)
  (capability : string) (isTrigger : bool) (getter setter : option Fn)
  (debounceTimeout : jsval) (debounceImmediate : bool) (klass : string) : M string :=
  modify_service service (ensure_characteristic klass) ;;
  log 6 (LogBinding capability isTrigger klass debounceTimeout) ;;
  (if map_onUpdate map then
     modify_service service (update_characteristic klass (add_ch_change
       {| cl_map := map_name map; cl_capability := capability; cl_service := service |}))
   else mret ()) ;;
  (if isTrigger then mret ()
   else
     (match getter with
      | Some g =>
          modify_service service (update_characteristic klass (set_ch_onGet
            {| rh_capability := capability; rh_getter := g;
               rh_service := service; rh_characteristic := klass |}))
      | None => mret ()
      end) ;;
     (match setter with
      | Some s =>
          modify_service service (update_characteristic klass (set_ch_onSet
            {| wh_capability := capability; wh_setter := s;
               wh_service := service; wh_characteristic := klass;
               wh_debounce := debounce debounceTimeout debounceImmediate |}))
      | None => mret ()
      end)) ;;
  mret klass.

(** The body of [for (const characteristicMap of ...)]. *)
Definition bind_characteristicMap (map : CapabilityMap) (service : nat)
  (capability : string) (isTrigger : bool) (characteristicMap : CharacteristicMap)
  : M unit :=
  let debounceTimeout := js_or (cm_debounce characteristicMap) (VNum 0) in
  let debounceImmediate := if truthy (cm_debounce characteristicMap) then false else true in
  let getters := flat_fns (cm_get characteristicMap) in
  let setters := flat_fns (cm_set characteristicMap) in
  device ← read md_device;
  let i := if bool_decide (capability ∈ dev_capabilities device) then 0 else 1 in
  let getter := mjoin (getters !! i) in
  let setter := mjoin (setters !! i) in
  characteristics ←
    map_each (bind_characteristic map service capability isTrigger getter setter
                debounceTimeout debounceImmediate)
             (flat1 (cm_characteristics characteristicMap));
  modify (λ h, set_md_listeners (md_listeners h ++
    [ {| ci_capability := capability; ci_getter := getter; ci_service := service;
         ci_characteristics := characteristics;
         ci_debounce := debounce debounceTimeout debounceImmediate;
         ci_destroyed := false |} ]) h).

(** [try { body } catch (err) { handler(err) }] *)
Definition try_catch (body : M unit) (handler : error → M unit) : M unit := λ h,
  match body h with
  | (Ok (), h') => (Ok (), h')
  | (Throw e, h') => handler e h'
  end.

Definition service_has (service : nat) (klass : string) : M bool :=
  read (λ h, match md_accessory h with
             | Some a => match acc_services a !! service with
                         | Some s => has_characteristic klass s
                         | None => false
                         end
             | None => false
             end).

(** "create or retrieve service": runs once per group, when the first
    bound capability of the group is met. *)
Definition resolve_service (map : CapabilityMap) (group : string)
  (service : option nat) : M nat :=
  match service with
  | Some s => mret s
  | None =>
      device ← read md_device;
      found ← with_accessory (λ a, Ok (getService a (map_service map), a));
      let create : M nat :=
        log 4 (LogNewService (map_service map)) ;;
        with_accessory (λ a,
          addService a (map_service map) (dev_name device)
                     (if decide (group = "") then "default" else group)) in
      s ← match found with
          | Some s =>
              if map_group map then create
              else (log 4 (LogExistingService (map_service map)) ;; mret s)
          | None => create
          end;
      match map_onService map with
      | Some onService => modify_service s (λ sv, onService sv device)
      | None => mret ()
      end ;;
      mret s
  end.

(** The body of [for (const prefix of capabilities)]; the local [service]
    is carried from one capability of the group to the next. *)
Definition bind_capability (map : CapabilityMap) (group : string)
  (service : option nat) (prefix : string) : M (option nat) :=
  let capability := prefix +:+ (if decide (group = "") then "" else "." +:+ group) in
  match first_of (binding_of (map_required map) prefix)
          (first_of (binding_of (map_optional map) prefix)
                    (binding_of (map_triggers map) prefix)) with
  | None => mret service
  | Some characteristicMaps =>
      let isTrigger := bool_decide (is_Some (binding_of (map_triggers map) prefix)) in
      s ← resolve_service map group service;
      for_each (bind_characteristicMap map s capability isTrigger)
               (flat1 characteristicMaps) ;;
      mret (Some s)
  end.

Definition adaptive_lighting (map : CapabilityMap) (service : option nat) : M unit :=
  match service with
  | Some s =>
      if map_adaptiveLighting map then
        try_catch
          (modify_service s (ensure_characteristic "Brightness") ;;
           modify_service s (ensure_characteristic "ColorTemperature") ;;
           brightnessChar ← service_has s "Brightness";
           colorTempChar ← service_has s "ColorTemperature";
           if brightnessChar && colorTempChar then
             device ← read md_device;
             with_accessory (λ a,
               res_bind (configureAdaptiveLighting a s device) (λ a', Ok ((), a'))) ;;
             log 4 LogAdaptiveLightingEnabled
           else log 4 LogAdaptiveLightingSkipped)
          (λ err, log 0 (LogAdaptiveLightingError err))
      else mret ()
  | None => mret ()
  end.

(** The body of [for (const [ group, capabilities ] of Object.entries(...))]. *)
Definition bind_group (map : CapabilityMap) (entry : string * list string) : M unit :=
  let '(group, capabilities) := entry in
  log 2 (LogGroup (if decide (group = "") then "DEFAULT" else group) capabilities) ;;
  service ← for_fold (bind_capability map group) None capabilities;
  adaptive_lighting map service.

Definition bind_map (groups : list (string * list string)) (map : CapabilityMap) : M unit :=
  log 0 (LogMap (map_name map)) ;;
  for_each (bind_group map)
           (Object_entries (if map_group map then groups else flattenGroups groups)).

(** [accessorize()] *)
Definition accessorize : M Accessory := λ h,
  match md_accessory h with
  | Some cachedAccessory => (Ok cachedAccessory, h)
  | None =>
      match createAccessory h with
      | Throw e => (Throw e, h)
      | Ok accessory =>
          (groups ← attempt groupCapabilities;
           maps ← read md_maps;
           for_each (bind_map groups) maps ;;
           with_accessory (λ a, Ok (a, a)))
            (set_md_accessory (Some accessory) h)
      end
  end.

(** [cleanup()]: [listener.destroy()] on every capability instance. *)
Definition destroy (ci : CapabilityInstance) : CapabilityInstance :=
  {| ci_capability := ci_capability ci; ci_getter := ci_getter ci;
     ci_service := ci_service ci; ci_characteristics := ci_characteristics ci;
     ci_debounce := ci_debounce ci; ci_destroyed := true |}.

Definition cleanup (h : MappedDevice) : MappedDevice :=
  set_md_listeners (destroy <$> md_listeners h) h.
End Binder.

(** ** The sync bridge at run time

    An [async] handler is run to completion; its rejected promise is a
    [Throw]. *)

Definition lift {A} (r : res A) : M A := λ h, (r, h).

Definition set_ci_debounce (d : Debounce) (ci : CapabilityInstance) : CapabilityInstance :=
  {| ci_capability := ci_capability ci; ci_getter := ci_getter ci;
     ci_service := ci_service ci; ci_characteristics := ci_characteristics ci;
     ci_debounce := d; ci_destroyed := ci_destroyed ci |}.

(** The service at a position of the accessory, and the characteristic of a
    type in it, as the target protocol would look them up. *)
Definition service_at (h : MappedDevice) (service : nat) : option Service :=
  a ← md_accessory h; acc_services a !! service.

Definition lookup_characteristic (h : MappedDevice) (service : nat) (klass : string)
  : option Characteristic :=
  s ← service_at h service; find_characteristic klass s.

Section Runtime.
Context `{Externals}.

(** The function given to [onGet] (lines 165-169). *)
Definition run_onGet (rh : ReadHandler) (h : MappedDevice) : res jsval :=
  let device := md_device h in
  let rawValue := capability_value device (rh_capability rh) in
  if decide (rawValue = VUndefined) then
    Throw (MissingCapabilityValue (rh_capability rh))
  else
    res_bind
      (rh_getter rh rawValue
         {| ctx_device := device; ctx_service := rh_service rh;
            ctx_capability := None; ctx_characteristic := rh_characteristic rh |})
      (validateUserInput (rh_characteristic rh)).

(** The function wrapped by [debounce] and given to [onSet] (lines 172-176);
    [response] is how the device answers [setCapabilityValue]. *)
Definition run_onSet (wh : WriteHandler) (rawValue : jsval) (response : res unit)
  : M unit :=
  device ← read md_device;
  value ← lift (wh_setter wh rawValue
                  {| ctx_device := device; ctx_service := wh_service wh;
                     ctx_capability := None;
                     ctx_characteristic := wh_characteristic wh |});
  modify (λ h, set_md_device (push_request (wh_capability wh) value (md_device h)) h) ;;
  match response with
  | Ok () => mret ()
  | Throw _ => mret () (* [.catch(() => {})] *)
  end ;;
  modify (λ h, set_md_device (updateCapability (wh_capability wh) value (md_device h)) h).

(** Modelled from the spec: [characteristic.updateValue(value)] of the
    target protocol; it stores the value. *)
Definition updateValue (service : nat) (klass : string) (v : jsval) : M unit :=
  modify_service service (update_characteristic klass (set_ch_value v)).

(** The function wrapped by [debounce] and given to
    [makeCapabilityInstance] (lines 185-194). *)
Definition capability_update (ci : CapabilityInstance) (rawValue : jsval) : M unit :=
  log 0 (LogCapabilityUpdate (ci_capability ci) rawValue) ;;
  for_each (λ name,
      device ← read md_device;
      value ← match ci_getter ci with
              | Some getter =>
                  lift (getter rawValue
                          {| ctx_device := device; ctx_service := ci_service ci;
                             ctx_capability := Some (ci_capability ci);
                             ctx_characteristic := name |})
              | None => throw (TypeError "getter is not a function")
              end;
      if decide (value = NO_VALUE) then mret ()
      else
        v ← lift (validateUserInput name value);
        updateValue (ci_service ci) name v)
    (ci_characteristics ci) ;;
  modify (λ h, set_md_device (updateCapability (ci_capability ci) rawValue (md_device h)) h).

(** Modelled from the spec: the device's subscription primitive.  A new
    value of a capability is handed to the (debounced) callback of every
    capability instance made for it that has not been destroyed; nobody
    awaits the callback, so its exception is dropped. *)
Definition notify_listener (capability : string) (value : jsval)
  (h : MappedDevice) (i : nat) : MappedDevice :=
  match md_listeners h !! i with
  | Some ci =>
      if ci_destroyed ci then h
      else if decide (ci_capability ci = capability) then
        let '(d, fire) := db_call (ci_debounce ci) value in
        let h' := set_md_listeners (<[i := set_ci_debounce d ci]> (md_listeners h)) h in
        match fire with
        | Some v => (capability_update ci v h').2
        | None => h'
        end
      else h
  | None => h
  end.

Definition capability_changed (capability : string) (value : jsval)
  (h : MappedDevice) : MappedDevice :=
  foldl (notify_listener capability value) h (seq 0 (length (md_listeners h))).

(** The debounce timer of the callback of listener [i] elapses. *)
Definition listener_timer (i : nat) (h : MappedDevice) : MappedDevice :=
  match md_listeners h !! i with
  | Some ci =>
      let '(d, fire) := db_timer (ci_debounce ci) in
      let h' := set_md_listeners (<[i := set_ci_debounce d ci]> (md_listeners h)) h in
      match fire with
      | Some v => (capability_update ci v h').2
      | None => h'
      end
  | None => h
  end.

(** What can happen to a handle once it is bound. *)
Inductive event : Type :=
| CapabilityChanged (capability : string) (value : jsval)
| ListenerTimer (i : nat)
| Cleanup.

Definition step (h : MappedDevice) (e : event) : MappedDevice :=
  match e with
  | CapabilityChanged capability value => capability_changed capability value h
  | ListenerTimer i => listener_timer i h
  | Cleanup => cleanup h
  end.

Definition run (h : MappedDevice) (es : list event) : MappedDevice := foldl step h es.
End Runtime.

(** ** The application: adding a device to the bridge *)

Inductive AppLogMsg : Type :=
| ErrNotReady
| LogNotInExposedMap (exposureState : jsval)
| LogTryingMapper
| LogAbleToMap
| LogShouldBeExposed
| LogUnableToExpose (e : error)
| LogNotExposed
| LogUnableToMap.

Record App := {
  (** [#exposed] *)
  app_exposed : StorageBackedMap.t;
  (** [#bridge.bridgedAccessories] *)
  app_bridge : list Accessory;
  (** the setting ['Settings.NewDevicePublish'] *)
  app_newDevicePublish : jsval;
  (** the handles that have been accessorized, by device identifier *)
  app_handles : gmap string MappedDevice;
  app_log : list AppLogMsg
}.

Definition set_app_exposed (m : StorageBackedMap.t) (a : App) : App :=
  {| app_exposed := m; app_bridge := app_bridge a;
     app_newDevicePublish := app_newDevicePublish a;
     app_handles := app_handles a; app_log := app_log a |}.

Definition set_app_bridge (b : list Accessory) (a : App) : App :=
  {| app_exposed := app_exposed a; app_bridge := b;
     app_newDevicePublish := app_newDevicePublish a;
     app_handles := app_handles a; app_log := app_log a |}.

Definition set_app_handle (id : string) (h : MappedDevice) (a : App) : App :=
  {| app_exposed := app_exposed a; app_bridge := app_bridge a;
     app_newDevicePublish := app_newDevicePublish a;
     app_handles := <[id := h]> (app_handles a); app_log := app_log a |}.

Definition app_say (msg : AppLogMsg) (a : App) : App :=
  {| app_exposed := app_exposed a; app_bridge := app_bridge a;
     app_newDevicePublish := app_newDevicePublish a;
     app_handles := app_handles a; app_log := app_log a ++ [ msg ] |}.

(** The collaborators of the application that the sources call but do not
    define: the device mapper ([lib/device-mapper], which answers with a
    handle or with nothing when no capability map applies) and the bridge. *)
Class AppExternals := {
  mapDevice : Device → option MappedDevice;
  addBridgedAccessory : list Accessory → Accessory → res (list Accessory)
}.

(** [isVirtualDevice(device)] *)
Definition isVirtualDevice (device : option Device) : bool :=
  match device with
  | Some d =>
      match dev_driverId d with
      | Some driverId => startsWith "homey:app:name.klep.homekitty:" driverId
      | None => false
      end
  | None => false
  end.

Section Application.
Context `{Externals} `{AppExternals}.

(** [addDeviceToHomeKit(device)]; the result is what the promise resolves
    to. *)
Definition addDeviceToHomeKit (device : option Device) (app : App) : jsval * App :=
  if isVirtualDevice device then (VUndefined, app)
  else
    match device with
    | None => (VBool false, app_say ErrNotReady app)
    | Some d =>
        if negb (dev_ready d) || negb (bool_decide (is_Some (dev_capabilitiesObj d)))
        then (VBool false, app_say ErrNotReady app)
        else
          let app :=
            if negb (StorageBackedMap.has (app_exposed app) (dev_id d)) then
              let exposureState := js_nullish (app_newDevicePublish app) (VBool true) in
              let app := app_say (LogNotInExposedMap exposureState) app in
              set_app_exposed
                (StorageBackedMap.set (app_exposed app) (dev_id d) exposureState) app
            else app in
          let app := app_say LogTryingMapper app in
          match mapDevice d with
          | Some mappedDevice =>
              let app := app_say LogAbleToMap app in
              if strict_neq (StorageBackedMap.get (app_exposed app) (dev_id d)) (VBool false)
              then
                let app := app_say LogShouldBeExposed app in
                let '(accessory, handle) := accessorize mappedDevice in
                let app := set_app_handle (dev_id d) handle app in
                match res_bind accessory (addBridgedAccessory (app_bridge app)) with
                | Ok bridge => (VBool true, set_app_bridge bridge app)
                | Throw e => (VBool false, app_say (LogUnableToExpose e) app)
                end
              else (VBool true, app_say LogNotExposed app)
          | None =>
              let app :=
                set_app_exposed
                  (StorageBackedMap.set (app_exposed app) (dev_id d) (VBool false)) app in
              (VBool false, app_say LogUnableToMap app)
          end
    end.
End Application.

(** ** Vocabulary of the proofs *)

(** What a step does to one service of the accessory; everything outside
    the accessory and the log stays. *)
Definition service_step (service : nat) (f : Service → Service)
  (h h' : MappedDevice) : Prop :=
  (∀ s, service_at h service = Some s → service_at h' service = Some (f s))
  ∧ md_listeners h' = md_listeners h
  ∧ md_device h' = md_device h.

(** What [bind_characteristic] does to the service it is given. *)
Definition install_handlers (map : CapabilityMap) (service : nat) (capability : string)
  (isTrigger : bool) (getter setter : option Fn) (wait : jsval) (immediate : bool)
  (klass : string) (s : Service) : Service :=
  let s := ensure_characteristic klass s in
  let s := if map_onUpdate map then
             update_characteristic klass (add_ch_change
               {| cl_map := map_name map; cl_capability := capability;
                  cl_service := service |}) s
           else s in
  if isTrigger then s
  else
    let s := match getter with
             | Some g =>
                 update_characteristic klass (set_ch_onGet
                   {| rh_capability := capability; rh_getter := g;
                      rh_service := service; rh_characteristic := klass |}) s
             | None => s
             end in
    match setter with
    | Some st =>
        update_characteristic klass (set_ch_onSet
          {| wh_capability := capability; wh_setter := st; wh_service := service;
             wh_characteristic := klass; wh_debounce := debounce wait immediate |}) s
    | None => s
    end.

(** A method body that writes no log line. *)
Definition log_kept {A} (m : M A) : Prop := ∀ h, md_log (m h).2 = md_log h.

(** What the reducer of [groupCapabilities] leaves when it does not throw:
    the base capability at the end of the list of its group, a new group
    after the others. *)
Definition group_filed (acc : list (string * list string)) (cap : string)
  : list (string * list string) :=
  let '(capability, group) := split_capability cap in
  let acc := match obj_get acc group with
             | Some _ => acc
             | None => obj_set acc group []
             end in
  obj_set acc group (default [] (obj_get acc group) ++ [ capability ]).

(** The reducer throws on an identifier whose group key is a name of
    [Object.prototype] that the accumulator does not hold itself. *)
Definition group_key_inherited (acc : list (string * list string)) (cap : string) : Prop :=
  obj_get acc (split_capability cap).2 = None
  ∧ (split_capability cap).2 ∈ Object_prototype.

(** ** The grouping rule in the words of the specification

    "Split each identifier on the first [.]; the left part is the base
    capability, the right part (or empty string) is the group key." *)

Fixpoint before_first_dot (s : string) : string :=
  match s with
  | EmptyString => EmptyString
  | String c s' =>
      if decide (c = "."%char) then EmptyString else String c (before_first_dot s')
  end.

Fixpoint after_first_dot (s : string) : string :=
  match s with
  | EmptyString => EmptyString
  | String c s' => if decide (c = "."%char) then s' else after_first_dot s'
  end.

Definition split_on_first_dot (cap : string) : string * string :=
  (before_first_dot cap, after_first_dot cap).

(** ** Sample data *)

Module Samples.

#[export] Instance externals : Externals := {|
  uuid_generate := λ id, "uuid:" +:+ id;
  validateUserInput := λ _ v, Ok v;
  configureAdaptiveLighting := λ a _ _,
    Ok {| acc_displayName := acc_displayName a; acc_UUID := acc_UUID a;
          acc_category := acc_category a; acc_identify := acc_identify a;
          acc_services := acc_services a;
          acc_controllers := acc_controllers a ++ [ "Adaptive Lighting" ] |}
|}.

(** A dimmable light with one visible [dim] and [onoff]. *)
Definition dev1 : Device :=
  {| dev_id := "dev-1"; dev_name := "Lamp"; dev_class := "light";
     dev_driverId := Some "homey:app:com.example:lamp";
     dev_zoneName := Some "Living room"; dev_ready := true;
     dev_capabilities := [ "onoff"; "dim" ];
     dev_capabilitiesObj := Some {[ "onoff" := VBool true; "dim" := VNum 4000 ]};
     dev_ui := Some {| ui_components :=
                         Some [ {| comp_capabilities := [ "onoff"; "dim" ] |} ] |};
     dev_requests := [] |}.

Definition identity : Fn := λ v _, Ok v.

(** Whole percents: the device counts in hundredths of a percent. *)
Definition to_percent : Fn := λ v _,
  match v with
  | VNum n => Ok (VNum (n / 100)%Z)
  | _ => Ok v
  end.

Definition from_percent : Fn := λ v _,
  match v with
  | VNum n => Ok (VNum (n * 100)%Z)
  | _ => Ok v
  end.

Definition OnOff : CharacteristicMap :=
  {| cm_characteristics := One "On"; cm_get := OneFn identity;
     cm_set := OneFn identity; cm_debounce := VUndefined |}.

Definition Dim : CharacteristicMap :=
  {| cm_characteristics := One "Brightness"; cm_get := OneFn to_percent;
     cm_set := OneFn from_percent; cm_debounce := VNum 300 |}.

(** The light map of the catalogue, with the two bindings above. *)
Definition light : CapabilityMap :=
  {| map_name := "light"; map_category := VNum 5; map_group := true;
     map_service := "Lightbulb"; map_adaptiveLighting := true;
     map_required := Some {[ "onoff" := One OnOff; "dim" := One Dim ]};
     map_optional := Some ∅; map_triggers := None;
     map_onService := None; map_onUpdate := false |}.

(** [new MappedDevice(mapper, dev1, light)] *)
Definition handle : MappedDevice :=
  {| md_device := dev1; md_class := "light"; md_capabilities := [ "onoff"; "dim" ];
     md_category := VNum 5; md_maps := [ light ]; md_accessory := None;
     md_listeners := []; md_log := [] |}.

(** The handle once bound, and its accessory. *)
Definition bound : MappedDevice := (accessorize handle).2.

Definition accessory : Accessory := default (new_Accessory "" "" VUndefined) (md_accessory bound).

(** The handlers and the listener that binding installs for [dim]. *)
Definition dim_read : ReadHandler :=
  {| rh_capability := "dim"; rh_getter := to_percent; rh_service := 1;
     rh_characteristic := "Brightness" |}.

Definition dim_write : WriteHandler :=
  {| wh_capability := "dim"; wh_setter := from_percent; wh_service := 1;
     wh_characteristic := "Brightness"; wh_debounce := debounce (VNum 300) false |}.

(** The light service of [bound] with the [dim] binding installed once
    more, characteristic by characteristic and as a whole binding. *)
Definition rebound : MappedDevice :=
  (bind_characteristic light 1 "dim" false (Some to_percent) (Some from_percent)
                       (VNum 300) false "Brightness" bound).2.

Definition rebound_binding : MappedDevice :=
  (bind_characteristicMap light 1 "dim" false Dim bound).2.

#[export] Instance unmappable : AppExternals := {|
  mapDevice := λ _, None;
  addBridgedAccessory := λ bridge a, Ok (bridge ++ [ a ])
|}.

(** The ledger loaded with [{"dev-1": true}]. *)
Definition ledger : StorageBackedMap.t :=
  StorageBackedMap.new (Some [ ("dev-1", VBool true) ]).

Definition app : App :=
  {| app_exposed := ledger; app_bridge := []; app_newDevicePublish := VUndefined;
     app_handles := ∅; app_log := [] |}.

End Samples.

(** ** The rest of the handle *)

Definition set_dev_name (name : string) (d : Device) : Device :=
  {| dev_id := dev_id d; dev_name := name; dev_class := dev_class d;
     dev_driverId := dev_driverId d; dev_zoneName := dev_zoneName d;
     dev_ready := dev_ready d; dev_capabilities := dev_capabilities d;
     dev_capabilitiesObj := dev_capabilitiesObj d; dev_ui := dev_ui d;
     dev_requests := dev_requests d |}.

(** [new MappedDevice(mapper, device, map)]; [upperFirst] is
    [mapper.Utils.upperFirst], which the sources call but do not define. *)
Definition new_MappedDevice (upperFirst : string → string) (device : Device)
  (map : CapabilityMap) : MappedDevice :=
  let name := if decide (dev_name device = "")
              then upperFirst (dev_class device) +:+ " Device"
              else dev_name device in
  {| md_device := set_dev_name name device; md_class := dev_class device;
     md_capabilities := dev_capabilities device; md_category := map_category map;
     md_maps := [ map ]; md_accessory := None; md_listeners := []; md_log := [] |}.

Definition getDevice (h : MappedDevice) : Device := md_device h.

Definition getCapabilities (h : MappedDevice) : list string := md_capabilities h.

Definition getClass (h : MappedDevice) : string := md_class h.

(** [addMap(map)]; [OTHER] is [Accessory.Categories.OTHER]. *)
Definition addMap (OTHER : jsval) (map : CapabilityMap) (h : MappedDevice) : MappedDevice :=
  {| md_device := md_device h; md_class := md_class h;
     md_capabilities := md_capabilities h;
     md_category := if decide (md_category h = OTHER)
                    then js_nullish (map_category map) OTHER
                    else md_category h;
     md_maps := md_maps h ++ [ map ]; md_accessory := md_accessory h;
     md_listeners := md_listeners h; md_log := md_log h |}.

(** The capability name that [accessorize] rebuilds from a base capability
    and its group: [`${ prefix }${ group ? '.' + group : '' }`]. *)
Definition full_capability (prefix group : string) : string :=
  prefix +:+ (if decide (group = "") then "" else "." +:+ group).

(** ** Sequences of ledger mutations *)

Inductive ledger_op : Type :=
| OpSet (id : string) (value : jsval)
| OpDelete (id : string).

Definition apply_op (m : StorageBackedMap.t) (op : ledger_op) : StorageBackedMap.t :=
  match op with
  | OpSet id value => StorageBackedMap.set m id value
  | OpDelete id => StorageBackedMap.delete m id
  end.

Definition apply_ops (m : StorageBackedMap.t) (ops : list ledger_op) : StorageBackedMap.t :=
  foldl apply_op m ops.

(** ** The rest of the application *)

(** [a === b] on primitives. *)
Definition strict_eq (a b : jsval) : bool := bool_decide (a = b).

(** [isHomeyDevice(device)]: [!!device?.driverId === 'homey:manager:vdevice:homey']. *)
Definition isHomeyDevice (device : option Device) : bool :=
  strict_eq
    (VBool match device with
           | Some d =>
               match dev_driverId d with
               | Some driverId => truthy (VStr driverId)
               | None => false
               end
           | None => false
           end)
    (VStr "homey:manager:vdevice:homey").

Definition set_app_handles (hs : gmap string MappedDevice) (a : App) : App :=
  {| app_exposed := app_exposed a; app_bridge := app_bridge a;
     app_newDevicePublish := app_newDevicePublish a;
     app_handles := hs; app_log := app_log a |}.

(** More of the collaborators that the sources call but do not define: the
    bridge's [removeBridgedAccessory], the accessory's [destroy], and the
    mapper's [forgetDevice] and [canMapDevice]. *)
Class ApiExternals := {
  removeBridgedAccessory : list Accessory → Accessory → res (list Accessory);
  destroyAccessory : Accessory → res unit;
  forgetDevice : gmap string MappedDevice → string → res (gmap string MappedDevice);
  canMapDevice : Device → bool
}.

(** A device as [getDeviceById] answers it, with its [available] flag. *)
Record FoundDevice := {
  found_device : Device;
  found_available : bool
}.

Section Api.
Context `{Externals} `{AppExternals} `{ApiExternals}.

(** [getAccessoryById(id)]: [bridgedAccessories.find(r => r.UUID === UUID)]. *)
Definition getAccessoryById (id : string) (app : App) : option Accessory :=
  snd <$> list_find (λ r, acc_UUID r = uuid_generate id) (app_bridge app).

(** [deleteDeviceFromHomeKit(device)], for a device of identifier [id]. *)
Definition deleteDeviceFromHomeKit (id : string) (app : App) : bool * App :=
  match getAccessoryById id app with
  | None => (false, app)
  | Some accessory =>
      match removeBridgedAccessory (app_bridge app) accessory with
      | Throw _ => (false, app)
      | Ok bridge =>
          let app := set_app_bridge bridge app in
          match destroyAccessory accessory with
          | Throw _ => (false, app)
          | Ok () =>
              match forgetDevice (app_handles app) id with
              | Throw _ => (false, app)
              | Ok handles => (true, set_app_handles handles app)
              end
          end
      end
  end.

(** [deleteDevice(device)] *)
Definition deleteDevice (id : string) (app : App) : App :=
  let app := (deleteDeviceFromHomeKit id app).2 in
  let app := set_app_exposed (StorageBackedMap.delete (app_exposed app) id) app in
  set_app_exposed (StorageBackedMap.save (app_exposed app)) app.

(** [mapDevices()], on the devices that [getDevices()] answers. *)
Definition mapDevices (devices : list Device) (app : App) : App :=
  let app := foldl (λ app device, (addDeviceToHomeKit (Some device) app).2) app devices in
  set_app_exposed (StorageBackedMap.save (app_exposed app)) app.

Definition set_and_save (id : string) (value : jsval) (app : App) : App :=
  set_app_exposed
    (StorageBackedMap.save (StorageBackedMap.set (app_exposed app) id value)) app.

(** [api.exposeDevice(id)]; [found] is what [getDeviceById(id)] answers. *)
Definition exposeDevice (id : string) (found : option FoundDevice) (app : App)
  : res string * App :=
  match found with
  | None => (Throw (UserError "API_ADD_DEVICE_FAILED"), app)
  | Some f =>
      if negb (found_available f) then
        (Throw (UserError "API_DEVICE_UNAVAILABLE"), set_and_save id (VBool true) app)
      else
        let oldExposureState := StorageBackedMap.get (app_exposed app) id in
        let app := set_and_save id (VBool true) app in
        let '(added, app) := addDeviceToHomeKit (Some (found_device f)) app in
        if negb (truthy added) then
          let app := set_and_save id oldExposureState app in
          if bool_decide (149 ≤ length (app_bridge app))%nat
          then (Throw (UserError "API_DEVICE_LIMIT_REACHED"), app)
          else (Throw (UserError "API_ADD_DEVICE_FAILED"), app)
        else (Ok "ok", app)
  end.

(** [api.unexposeDevice(id)] *)
Definition unexposeDevice (id : string) (app : App) : res string * App :=
  let deleted :=
    match getAccessoryById id app with
    | Some _ => Some (deleteDeviceFromHomeKit id app)
    | None => None
    end in
  match deleted with
  | Some (false, app) => (Throw (UserError "API_DELETE_DEVICE_FAILED"), app)
  | Some (true, app) => (Ok "ok", set_and_save id (VBool false) app)
  | None => (Ok "ok", set_and_save id (VBool false) app)
  end.

(** What [api.getDevices()] attaches to a device as [homekitty]. *)
Record DeviceState := {
  state_device : Device;
  state_supported : bool;
  state_exposed : bool
}.

(** [api.getDevices()], on the devices that [getDevices()] answers. *)
Definition api_getDevices (devices : list Device) (app : App) : list DeviceState :=
  (λ device,
     {| state_device := device;
        state_supported := canMapDevice device;
        state_exposed :=
          strict_neq (StorageBackedMap.get (app_exposed app) (dev_id device)) (VBool false) |})
  <$> filter (λ device, negb (isVirtualDevice (Some device))
                        && negb (isHomeyDevice (Some device)) = true) devices.
End Api.

(** A method body that never empties [#accessory]. *)
Definition keeps_accessory {A} (m : M A) : Prop :=
  ∀ h, is_Some (md_accessory h) → is_Some (md_accessory (m h).2).

(** A method body that keeps a property of the handle, also when it throws. *)
Definition preserves {A} (P : MappedDevice → Prop) (m : M A) : Prop :=
  ∀ h, P h → P (m h).2.

(** The debounce of a subscription is leading-edge exactly when its interval
    is falsy. *)
Definition polarity_ok (ci : CapabilityInstance) : Prop :=
  db_immediate (ci_debounce ci) = negb (truthy (db_wait (ci_debounce ci))).

(** ** More sample data *)

Module MoreSamples.
Import Samples.

(** The sample light with the light map registered twice. *)
Definition twice : MappedDevice :=
  {| md_device := dev1; md_class := "light"; md_capabilities := [ "onoff"; "dim" ];
     md_category := VNum 5; md_maps := [ light; light ]; md_accessory := None;
     md_listeners := []; md_log := [] |}.

(** What the second [addService] of the same type and discriminator throws. *)
Definition duplicate_service : error :=
  HapError "Cannot add a Service with the same UUID and subtype as another Service".

(** The sample light without a user interface. *)
Definition blind : MappedDevice :=
  set_md_device
    {| dev_id := "dev-1"; dev_name := "Lamp"; dev_class := "light";
       dev_driverId := Some "homey:app:com.example:lamp";
       dev_zoneName := None; dev_ready := true;
       dev_capabilities := [ "onoff"; "dim" ];
       dev_capabilitiesObj := Some {[ "onoff" := VBool true; "dim" := VNum 4000 ]};
       dev_ui := None; dev_requests := [] |}
    handle.

#[export] Instance mappable : AppExternals := {|
  mapDevice := λ d, Some (new_MappedDevice (λ s, s) d light);
  addBridgedAccessory := λ bridge a, Ok (bridge ++ [ a ])
|}.

#[export] Instance api : ApiExternals := {|
  removeBridgedAccessory := λ bridge a,
    Ok (filter (λ r, acc_UUID r ≠ acc_UUID a) bridge);
  destroyAccessory := λ _, Ok ();
  forgetDevice := λ handles id, Ok (base.delete id handles);
  canMapDevice := λ _, true
|}.

(** The application with the user's decision not to expose [dev-1]. *)
Definition opted_out : App :=
  {| app_exposed := StorageBackedMap.new (Some [ ("dev-1", VBool false) ]);
     app_bridge := []; app_newDevicePublish := VUndefined;
     app_handles := ∅; app_log := [] |}.

(** The application before any device is known. *)
Definition fresh : App :=
  {| app_exposed := StorageBackedMap.new None;
     app_bridge := []; app_newDevicePublish := VUndefined;
     app_handles := ∅; app_log := [] |}.

(** A subscription whose getter always answers with the sentinel, one that
    was bound without a getter, and a write handler whose setter throws. *)
Definition silent : CapabilityInstance :=
  {| ci_capability := "dim"; ci_getter := Some (λ _ _, Ok NO_VALUE); ci_service := 1;
     ci_characteristics := [ "Brightness" ]; ci_debounce := debounce (VNum 0) true;
     ci_destroyed := false |}.

Definition getterless : CapabilityInstance :=
  {| ci_capability := "dim.x"; ci_getter := None; ci_service := 1;
     ci_characteristics := [ "Brightness" ]; ci_debounce := debounce (VNum 0) true;
     ci_destroyed := false |}.

Definition refusing : WriteHandler :=
  {| wh_capability := "dim"; wh_setter := λ _ _, Throw (UserError "out of range");
     wh_service := 1; wh_characteristic := "Brightness";
     wh_debounce := debounce (VNum 0) true |}.

(** The accessory of the sample light as [createAccessory] makes it, and the
    application with that accessory on the bridge. *)
Definition created : Accessory :=
  match createAccessory handle with
  | Ok a => a
  | Throw _ => new_Accessory "" "" VUndefined
  end.

Definition bridged : App :=
  {| app_exposed := ledger; app_bridge := [ created ]; app_newDevicePublish := VUndefined;
     app_handles := ∅; app_log := [] |}.

(** A switch map without a category. *)
Definition OnOff_only : CapabilityMap :=
  {| map_name := "switch"; map_category := VUndefined; map_group := false;
     map_service := "Switch"; map_adaptiveLighting := false;
     map_required := Some {[ "onoff" := One OnOff ]};
     map_optional := None; map_triggers := None;
     map_onService := None; map_onUpdate := false |}.

(** The sample light as [getDeviceById] answers it. *)
Definition found : FoundDevice := {| found_device := dev1; found_available := true |}.

End MoreSamples.

(** * Properties *)

(** ** Objects and sorting *)

Section ObjectFacts.
Context {V : Type}.
Implicit Types (o : list (string * V)) (k : string) (v : V).

Lemma obj_get_set o k k' v :
  obj_get (obj_set o k v) k' = if decide (k = k') then Some v else obj_get o k'.
Proof.
  induction o as [|[k0 v0] o IH]; simpl.
  - repeat case_decide; congruence.
  - destruct (decide (k0 = k)) as [->|Hne]; simpl.
    + repeat case_decide; congruence.
    + rewrite IH. repeat case_decide; congruence.
Qed.

Lemma obj_get_set_eq o k v : obj_get (obj_set o k v) k = Some v.
Proof. rewrite obj_get_set. by case_decide. Qed.

Lemma obj_get_set_ne o k k' v : k ≠ k' → obj_get (obj_set o k v) k' = obj_get o k'.
Proof. intros. rewrite obj_get_set. by case_decide. Qed.

Lemma obj_get_Some_key o k v : obj_get o k = Some v → k ∈ o.*1.
Proof.
  induction o as [|[k0 v0] o IH]; simpl; [done|].
  case_decide; subst; intros; [left | right; auto].
Qed.

Lemma obj_get_None_key o k : obj_get o k = None → k ∉ o.*1.
Proof.
  induction o as [|[k0 v0] o IH]; simpl.
  - intros _ Hin. by apply elem_of_nil in Hin.
  - case_decide; [done|]. intros Hn [->|Hin]%elem_of_cons; [done|]. by apply IH.
Qed.
End ObjectFacts.

Section SortFacts.
Context {A : Type} (key : A → N).

Lemma insert_by_perm x (l : list A) : insert_by key x l ≡ₚ x :: l.
Proof.
  induction l as [|y l IH]; simpl; [done|].
  destruct (key x <=? key y)%N; [done|].
  rewrite IH. apply Permutation_swap.
Qed.

Lemma sort_by_perm (l : list A) : sort_by key l ≡ₚ l.
Proof.
  induction l as [|x l IH]; simpl; [done|].
  rewrite insert_by_perm. by rewrite IH.
Qed.

Lemma insert_by_sorted x (l : list A) :
  StronglySorted (key_le key) l → StronglySorted (key_le key) (insert_by key x l).
Proof.
  induction 1 as [|y l Hs IH Hall]; simpl.
  - repeat constructor.
  - destruct (key x <=? key y)%N eqn:Hle.
    + apply N.leb_le in Hle. constructor; [by constructor|].
      constructor; [done|].
      eapply Forall_impl; [exact Hall|]. unfold key_le. intros; lia.
    + apply N.leb_gt in Hle. constructor; [done|].
      rewrite insert_by_perm. constructor; [unfold key_le; lia | done].
Qed.

Lemma sort_by_sorted (l : list A) : StronglySorted (key_le key) (sort_by key l).
Proof.
  induction l as [|x l IH]; simpl; [constructor|]. by apply insert_by_sorted.
Qed.

Lemma sorted_lookup_le (l : list A) i j x y :
  StronglySorted (key_le key) l → l !! i = Some x → l !! j = Some y → i < j →
  (key x ≤ key y)%N.
Proof.
  intros Hs. revert i j. induction Hs as [|z l Hs IH Hall]; intros i j Hi Hj Hlt.
  - done.
  - destruct j as [|j]; [lia|]. simpl in Hj.
    destruct i as [|i]; simpl in Hi.
    + injection Hi as ->. rewrite Forall_forall in Hall.
      apply Hall. by eapply list_elem_of_lookup_2.
    + eapply IH; eauto. lia.
Qed.
End SortFacts.

Lemma Object_keys_perm {V} (o : list (string * V)) : Object_keys o ≡ₚ o.*1.
Proof.
  unfold Object_keys. rewrite sort_by_perm. apply filter_app_complement.
Qed.

(** ** Splitting a capability identifier *)

Lemma split_head (s : string) :
  ∃ ws, split "."%char s = before_first_dot s :: ws
        ∧ (∀ c s', s = String c s' → c = "."%char → ws = split "."%char s')
        ∧ head ws = (if bool_decide (s = before_first_dot s) then None
                     else Some (before_first_dot (after_first_dot s))).
Proof.
  induction s as [|c s IH]; simpl.
  - exists []. split_and!; [done | by intros | done].
  - destruct (decide (c = "."%char)) as [->|Hne].
    + destruct IH as (ws & Hs & _ & _). exists (split "."%char s).
      split_and!; [done | by intros ?? [= _ <-] _ |].
      rewrite bool_decide_eq_false_2 by done. by rewrite Hs.
    + destruct IH as (ws & Hs & _ & Hh). rewrite Hs. exists ws.
      split_and!; [done | by intros ?? [= <- _] ? |].
      rewrite Hh.
      rewrite (bool_decide_ext (String c s = String c (before_first_dot s))
                               (s = before_first_dot s)); [done|].
      split; [by intros [=] | by intros <-].
Qed.

Lemma split_capability_spec (cap : string) :
  split_capability cap = (before_first_dot cap, before_first_dot (after_first_dot cap)).
Proof.
  unfold split_capability.
  destruct (split_head cap) as (ws & -> & _ & Hh).
  destruct ws as [|g ws]; simpl in Hh.
  - case_bool_decide as Heq; [|done]. f_equal.
    clear Hh. induction cap as [|c s IH]; simpl in *; [done|].
    destruct (decide (c = "."%char)); [done|].
    injection Heq as Heq. by apply IH.
  - case_bool_decide; [done|]. by injection Hh as ->.
Qed.

Lemma caps_of_set (o : list (string * list string)) k l g :
  caps_of (obj_set o k l) g = if decide (k = g) then l else caps_of o g.
Proof. unfold caps_of. rewrite obj_get_set. by case_decide. Qed.

Lemma group_step_filed (acc : list (string * list string)) (cap : string) :
  ¬ group_key_inherited acc cap → group_step acc cap = Ok (group_filed acc cap).
Proof.
  unfold group_key_inherited, group_step, group_filed, obj_lookup.
  destruct (split_capability cap) as [base group]. cbn [fst snd]. intros Hok.
  destruct (obj_get acc group) as [l|] eqn:Hg.
  - by rewrite Hg.
  - destruct (decide (group ∈ Object_prototype)) as [Hin|Hout]; [by destruct Hok|].
    by rewrite obj_get_set_eq.
Qed.

Lemma group_step_throws (acc : list (string * list string)) (cap : string) :
  group_key_inherited acc cap →
  group_step acc cap = Throw (TypeError "acc[group].push is not a function").
Proof.
  unfold group_key_inherited, group_step, obj_lookup.
  destruct (split_capability cap) as [base group]. cbn [fst snd]. intros [Hg Hin].
  rewrite Hg. destruct (decide (group ∈ Object_prototype)); [|done].
  by rewrite Hg.
Qed.

(** C3, as amended.  Grouping splits a visible capability identifier at every
    [.] and keeps the first two parts: the base capability is everything
    before the first [.], and the group key is what lies between the first
    and the second [.] (the empty string when there is no [.]).  Unless the
    group key is a name of [Object.prototype] that has no list yet, the
    reducer appends the base capability to the list of that group and
    touches no other group. *)
Theorem group_step_splits_at_dots (acc : list (string * list string)) (cap : string) :
  let base := before_first_dot cap in
  let group := before_first_dot (after_first_dot cap) in
  split_capability cap = (base, group)
  ∧ (is_Some (obj_get acc group) ∨ group ∉ Object_prototype →
       ∃ acc',
         group_step acc cap = Ok acc'
         ∧ obj_get acc' group = Some (caps_of acc group ++ [ base ])
         ∧ ∀ g, g ≠ group → obj_get acc' g = obj_get acc g).
Proof.
  intros base group. split; [apply split_capability_spec|]. intros Hok.
  exists (group_filed acc cap). split.
  { apply group_step_filed. unfold group_key_inherited.
    rewrite split_capability_spec. simpl. fold group.
    intros [Hnone Hin]. destruct Hok as [[l Hl]|Hout]; [congruence | done]. }
  unfold group_filed. rewrite split_capability_spec. fold base group.
  split.
  - rewrite obj_get_set_eq. f_equal. f_equal. unfold caps_of.
    destruct (obj_get acc group) as [l|] eqn:Hg; [by rewrite Hg|].
    by rewrite obj_get_set_eq.
  - intros g Hne. rewrite obj_get_set_ne by done.
    destruct (obj_get acc group); [done|]. by rewrite obj_get_set_ne.
Qed.

(** With at most one [.] in the identifier the group key is the whole
    remainder, as the specification words it. *)
Corollary split_capability_one_dot (cap : string) :
  before_first_dot (after_first_dot cap) = after_first_dot cap →
  split_capability cap = split_on_first_dot cap.
Proof. intros Heq. rewrite split_capability_spec. unfold split_on_first_dot. by rewrite Heq. Qed.

(** C3, as stated, fails on an identifier with two dots: the group key is
    [a], not the remainder [a.b]. *)
Lemma split_capability_two_dots :
  split_capability "onoff.a.b" = ("onoff", "a")
  ∧ split_on_first_dot "onoff.a.b" = ("onoff", "a.b")
  ∧ groupCapabilities_of
      (Some {| ui_components := Some [ {| comp_capabilities := [ "onoff.a.b" ] |} ] |})
    = Ok [ ("a", [ "onoff" ]) ].
Proof. by vm_compute. Qed.

Example groupCapabilities_scenario :
  groupCapabilities_of
    (Some {| ui_components := Some [ {| comp_capabilities := [ "dim" ] |} ] |})
  = Ok [ ("", [ "dim" ]) ].
Proof. reflexivity. Qed.

(** An identifier whose group key is a name of [Object.prototype] stops the
    grouping with a [TypeError]. *)
Example groupCapabilities_inherited_group_key :
  groupCapabilities_of
    (Some {| ui_components :=
               Some [ {| comp_capabilities := [ "dim"; "onoff.constructor" ] |} ] |})
  = Throw (TypeError "acc[group].push is not a function").
Proof. reflexivity. Qed.

(** ** Flattening *)

Lemma obj_get_assign {V} (o : list (string * V)) k k' v :
  obj_get (obj_assign o k v) k'
  = if decide (k = "__proto__") then obj_get o k'
    else if decide (k = k') then Some v else obj_get o k'.
Proof.
  unfold obj_assign. case_decide; [done|]. rewrite obj_get_set. by case_decide.
Qed.

Lemma caps_of_assign (o : list (string * list string)) k l g :
  caps_of (obj_assign o k l) g
  = if decide (k = "__proto__") then caps_of o g
    else if decide (k = g) then l else caps_of o g.
Proof. unfold caps_of. rewrite obj_get_assign. by repeat case_decide. Qed.

Section Flatten.
Variable groups : list (string * list string).

Local Abbreviation holds c := (λ g' : string, c ∈ caps_of groups g').

Lemma flatten_fold (ks : list string) : ∀ acc,
  NoDup ks →
  (∀ k, k ∈ ks → obj_get (fa_groups acc) k = None) →
  ∀ g c,
    c ∈ caps_of (fa_groups (foldl (flatten_step groups) acc ks)) g
    ↔ c ∈ caps_of (fa_groups acc) g
      ∨ (¬ obj_in (fa_seen acc) c ∧ g ≠ "__proto__"
         ∧ ∃ i, list_find (holds c) ks = Some (i, g)).
Proof.
  induction ks as [|k ks IH]; intros acc Hnd Hfresh g c; simpl.
  - split; [by left|]. intros [?|(_ & _ & i & ?)]; done.
  - apply NoDup_cons in Hnd as [Hk Hnd].
    rewrite IH; [|done|]; last first.
    { intros k' Hk'. simpl. rewrite obj_get_assign, Hfresh by (by right).
      destruct (decide (k = "__proto__")); [done|].
      rewrite decide_False; [done | by intros ->]. }
    simpl. rewrite caps_of_assign.
    assert (caps_of (fa_groups acc) k = []) as Hempty.
    { unfold caps_of. rewrite Hfresh; [done | by left]. }
    assert (obj_in (fa_seen acc ∪ list_to_set
                      (filter (λ cap, ¬ obj_in (fa_seen acc) cap) (caps_of groups k))) c
            ↔ obj_in (fa_seen acc) c ∨ c ∈ caps_of groups k) as ->.
    { unfold obj_in. rewrite elem_of_union, elem_of_list_to_set, list_elem_of_filter.
      unfold obj_in. destruct (decide (c ∈ fa_seen acc)), (decide (c ∈ Object_prototype));
        tauto. }
    destruct (decide (c ∈ caps_of groups k)) as [Hin|Hout].
    + split.
      * intros [Hc|(Hs & _)]; [|tauto].
        destruct (decide (k = "__proto__")); [by left|].
        case_decide as Hkg; [subst g | by left].
        apply list_elem_of_filter in Hc as [??]. right. split_and!; [done | done | by eexists].
      * intros [Hc|(Hs & Hg & i & [= <- <-])].
        -- left. destruct (decide (k = "__proto__")); [done|].
           case_decide as Hkg; [subst g | done].
           rewrite Hempty in Hc. by apply elem_of_nil in Hc.
        -- left. rewrite decide_False, decide_True by done.
           by apply list_elem_of_filter.
    + split.
      * intros [Hc|(Hs & Hg & i & Hi)].
        -- destruct (decide (k = "__proto__")); [by left|].
           case_decide as Hkg; [subst g | by left].
           apply list_elem_of_filter in Hc as [??]. done.
        -- right. split_and!; [tauto | done |]. exists (S i). by rewrite Hi.
      * intros [Hc|(Hs & Hg & i & Hi)].
        -- left. destruct (decide (k = "__proto__")); [done|].
           case_decide as Hkg; [subst g | done].
           rewrite Hempty in Hc. by apply elem_of_nil in Hc.
        -- right. destruct (list_find (holds c) ks) as [[j g']|] eqn:Hf; [|done].
           simpl in Hi. injection Hi as <- <-.
           split_and!; [tauto | done | by eauto].
Qed.

Lemma flattenGroups_find g c :
  NoDup groups.*1 →
  c ∈ caps_of (flattenGroups groups) g
  ↔ (c ∉ Object_prototype) ∧ g ≠ "__proto__"
    ∧ ∃ i, list_find (holds c) (sort_by_length (Object_keys groups)) = Some (i, g).
Proof.
  intros Hnd. unfold flattenGroups. rewrite flatten_fold.
  - simpl. unfold obj_in. split.
    + intros [Hc|(Hs & ? & ?)]; [by apply elem_of_nil in Hc|].
      split_and!; [tauto | done | done].
    + intros (? & ? & ?). right. split_and!; [|done|done].
      intros [?|?]; [set_solver | done].
  - unfold sort_by_length. rewrite sort_by_perm, Object_keys_perm. done.
  - done.
Qed.
End Flatten.

(** C1.  The capability [toString] of the group mapping
    [{ '': [ 'toString', 'onoff' ] }] is in the list of no group after
    flattening: [cap in acc.seen] holds for a name that [Object.prototype]
    defines although no group has taken the capability. *)
Theorem flattenGroups_loses_inherited_name :
  let groups := [ ("", [ "toString"; "onoff" ]) ] in
  "toString" ∈ caps_of groups ""
  ∧ flattenGroups groups = [ ("", [ "onoff" ]) ]
  ∧ ∀ g, "toString" ∉ caps_of (flattenGroups groups) g.
Proof.
  intros groups. split_and!; [compute_done | by vm_compute |].
  intros g. rewrite flattenGroups_find by compute_done.
  intros [Hout _]. apply Hout. compute_done.
Qed.

(** X30.  For a group mapping with distinct keys, none of them [__proto__],
    each base capability that occurs in some group and is not named like a
    member of [Object.prototype] appears after flattening in the output list
    of exactly one group; that group contains the capability in the input,
    no group that contains it has a shorter key, and it is the empty key
    whenever the empty group contains the capability. *)
Theorem flattenGroups_one_shortest_group
  (groups : list (string * list string)) (c g : string) :
  NoDup groups.*1 →
  "__proto__" ∉ groups.*1 →
  c ∉ Object_prototype →
  c ∈ caps_of groups g →
  ∃ g0,
    c ∈ caps_of (flattenGroups groups) g0
    ∧ (∀ g', c ∈ caps_of (flattenGroups groups) g' → g' = g0)
    ∧ c ∈ caps_of groups g0
    ∧ (∀ g', c ∈ caps_of groups g' → (String.length g0 ≤ String.length g')%nat)
    ∧ (c ∈ caps_of groups "" → g0 = "").
Proof.
  intros Hnd Hproto Hname Hc.
  set (ks := sort_by_length (Object_keys groups)).
  assert (∀ g', g' ∈ ks → g' ∈ groups.*1) as Hks.
  { intros g'. unfold ks, sort_by_length. by rewrite sort_by_perm, Object_keys_perm. }
  assert (∀ g', c ∈ caps_of groups g' → g' ∈ ks) as Hkeys.
  { intros g' Hg'. unfold ks, sort_by_length.
    rewrite sort_by_perm, Object_keys_perm.
    unfold caps_of in Hg'. destruct (obj_get groups g') as [l|] eqn:Hl.
    - by eapply obj_get_Some_key.
    - by apply elem_of_nil in Hg'. }
  destruct (list_find_elem_of (λ g', c ∈ caps_of groups g') ks g (Hkeys _ Hc) Hc)
    as [[i g0] Hfind].
  pose proof Hfind as (Hi & Hg0 & Hfirst)%list_find_Some.
  assert (∀ g', c ∈ caps_of groups g' → (String.length g0 ≤ String.length g')%nat) as Hmin.
  { intros g' Hg'. pose proof (Hkeys _ Hg') as Hin.
    apply list_elem_of_lookup in Hin as [j Hj].
    destruct (decide (j < i)%nat) as [Hlt|Hge]; [by destruct (Hfirst j g')|].
    destruct (decide (j = i)) as [->|Hne]; [by simplify_eq|].
    assert (N.of_nat (String.length g0) ≤ N.of_nat (String.length g'))%N; [|lia].
    eapply (sorted_lookup_le (λ k, N.of_nat (String.length k)) ks i j);
      [apply sort_by_sorted | done | done | lia]. }
  exists g0. split_and!.
  - apply flattenGroups_find; [done|]. split_and!; [done | | by eauto].
    intros ->. apply Hproto, Hks. by eapply list_elem_of_lookup_2.
  - intros g' (_ & _ & j & Hj)%flattenGroups_find; [|done]. fold ks in Hj. congruence.
  - done.
  - done.
  - intros He. specialize (Hmin _ He). simpl in Hmin. destruct g0; [done | simpl in Hmin; lia].
Qed.

Lemma flattenGroups_one_shortest_group_witness :
  let groups := [ ("b", [ "x"; "y" ]); ("", [ "y"; "z" ]); ("10", [ "x" ]) ] in
  ∃ g0,
    "y" ∈ caps_of (flattenGroups groups) g0
    ∧ (∀ g', "y" ∈ caps_of (flattenGroups groups) g' → g' = g0)
    ∧ "y" ∈ caps_of groups g0
    ∧ (∀ g', "y" ∈ caps_of groups g' → (String.length g0 ≤ String.length g')%nat)
    ∧ ("y" ∈ caps_of groups "" → g0 = "").
Proof.
  intros groups.
  apply (flattenGroups_one_shortest_group groups "y" "b"); compute_done.
Defined.

Example flattenGroups_example :
  flattenGroups [ ("b", [ "x"; "y" ]); ("", [ "y"; "z"; "z" ]); ("10", [ "x" ]); ("2", [ "q"; "x" ]) ]
  = [ ("", [ "y"; "z"; "z" ]); ("2", [ "q"; "x" ]); ("b", []); ("10", []) ].
Proof. by vm_compute. Qed.

(** ** Exposure ledger *)

Module LedgerFacts.
Import StorageBackedMap.

Lemma get_set (m : t) (k k' : string) (v : jsval) :
  get (set m k v) k' = if decide (k = k') then v else get m k'.
Proof.
  unfold get, set; simpl. case_decide; subst.
  - by rewrite lookup_insert_eq.
  - by rewrite lookup_insert_ne.
Qed.

(** C4.  [set(id, v)] leaves the dirty bit as it was when [id] already
    reads as [v] and makes it true when the value read for [id] changes;
    [delete(id)] leaves the dirty bit (and the ledger) as it was when [id]
    is absent and makes it true when [id] was present. *)
Theorem set_delete_dirty_on_change (m : t) (id : string) (v : jsval) :
  get (set m id v) id = v
  ∧ (get m id = v → isDirty (set m id v) = isDirty m)
  ∧ (get m id ≠ v → isDirty (set m id v) = true)
  ∧ has (delete m id) id = false
  ∧ (has m id = false →
       isDirty (delete m id) = isDirty m ∧ entries (delete m id) = entries m)
  ∧ (has m id = true → isDirty (delete m id) = true).
Proof.
  split_and!.
  - rewrite get_set. by case_decide.
  - intros Heq. unfold isDirty, set, strict_neq; simpl.
    rewrite bool_decide_eq_false_2 by (by intros ?). by rewrite orb_false_r.
  - intros Hne. unfold isDirty, set, strict_neq; simpl.
    rewrite bool_decide_eq_true_2 by done. by rewrite orb_true_r.
  - unfold has, delete; simpl. apply bool_decide_eq_false_2.
    rewrite lookup_delete_eq. by intros [??].
  - intros Hno. unfold isDirty, delete; simpl. rewrite Hno, orb_false_r.
    split; [done|]. apply delete_id.
    unfold has in Hno. apply bool_decide_eq_false_1 in Hno.
    by apply eq_None_not_Some.
  - intros Hyes. unfold isDirty, delete; simpl. by rewrite Hyes, orb_true_r.
Qed.

(** For a defined value, the value read for [id] is unchanged by [set]
    exactly when the ledger itself is. *)
Lemma set_same_entries (m : t) (id : string) (v : jsval) :
  v ≠ VUndefined → (entries (set m id v) = entries m ↔ get m id = v).
Proof.
  intros Hv. unfold set, get; simpl. split.
  - intros Heq. rewrite <- Heq. by rewrite lookup_insert_eq.
  - destruct (entries m !! id) as [x|] eqn:Hx; simpl; [|congruence].
    intros ->. by apply insert_id.
Qed.

Example delete_absent_scenario :
  isDirty (delete Samples.ledger "dev-2") = false.
Proof. reflexivity. Qed.

Example set_twice_scenario :
  isDirty (set (set Samples.ledger "dev-1" (VBool true)) "dev-1" (VBool true)) = false.
Proof. reflexivity. Qed.

Section SetAll.
Variable value : jsval.

Local Abbreviation set_value := (λ (m : t) (key : string), set m key value).

Lemma foldl_set_lookup (ks : list string) : ∀ (m : t) (i : string),
  entries (foldl set_value m ks) !! i
  = if decide (i ∈ ks) then Some value else entries m !! i.
Proof.
  induction ks as [|k ks IH]; intros m i; cbn [foldl].
  - rewrite decide_False; [done | apply not_elem_of_nil].
  - rewrite IH.
    change (entries (set m k value)) with (<[k := value]> (entries m)).
    destruct (decide (i ∈ ks)) as [Hin|Hout].
    + rewrite decide_True; [done | by right].
    + destruct (decide (k = i)) as [->|Hne].
      * rewrite lookup_insert_eq. rewrite decide_True; [done | by left].
      * rewrite lookup_insert_ne by done.
        rewrite decide_False; [done|]. by intros [->|?]%elem_of_cons.
Qed.

Lemma foldl_set_saved (ks : list string) : ∀ m : t,
  saved (foldl set_value m ks) = saved m.
Proof. induction ks as [|k ks IH]; intros m; simpl; [done|]. by rewrite IH. Qed.

Lemma foldl_set_dirty (ks : list string) : ∀ m : t,
  dirty (foldl set_value m ks) = true
  ↔ dirty m = true ∨ ∃ k, k ∈ ks ∧ get m k ≠ value.
Proof.
  induction ks as [|k ks IH]; intros m; simpl.
  - split; [by left|]. intros [?|(k & Hk & _)]; [done|]. by apply elem_of_nil in Hk.
  - rewrite IH. simpl. rewrite orb_true_iff. unfold strict_neq at 1.
    rewrite bool_decide_eq_true. split.
    + intros [[?|?]|(k' & Hk' & Hne)]; [by left | right; exists k; split; [by left|done] |].
      rewrite get_set in Hne. case_decide; [done|].
      right. exists k'. split; [by right | done].
    + intros [?|(k' & [->|Hk']%elem_of_cons & Hne)]; [by left; left | by left; right |].
      destruct (decide (k = k')) as [->|Hkk]; [by left; right|].
      right. exists k'. split; [done|]. rewrite get_set. by case_decide.
Qed.
End SetAll.

Lemma elem_of_keys (m : t) (k : string) : k ∈ keys m ↔ is_Some (entries m !! k).
Proof.
  unfold keys. rewrite list_elem_of_fmap. split.
  - intros ([k' x] & -> & Hin). apply elem_of_map_to_list in Hin. by exists x.
  - intros [x Hx]. exists (k, x). split; [done|]. by apply elem_of_map_to_list.
Qed.

(** C5, as amended.  [setAll(value)] sets every existing key to [value]
    (and adds none), leaves the ledger clean, and calls the persistence
    sink at most once: exactly once, with the new snapshot, when the ledger
    was dirty or some key held another value, and not at all otherwise. *)
Theorem setAll_sets_all_saves_if_dirty (m : t) (value : jsval) :
  entries (setAll m value) = (λ _, value) <$> entries m
  ∧ isDirty (setAll m value) = false
  ∧ saved (setAll m value)
    = if isDirty m || negb (bool_decide (map_Forall (λ _ x, x = value) (entries m)))
      then saved m ++ [ (λ _, value) <$> entries m ]
      else saved m.
Proof.
  unfold setAll, isDirty.
  set (m1 := foldl (λ m key, set m key value) m (keys m)).
  assert (entries m1 = (λ _, value) <$> entries m) as Hentries.
  { apply map_eq. intros i. unfold m1. rewrite foldl_set_lookup, lookup_fmap.
    case_decide as Hi; rewrite elem_of_keys in Hi.
    - destruct Hi as [x ->]. done.
    - apply eq_None_not_Some in Hi. by rewrite Hi. }
  assert (dirty m1
          = dirty m || negb (bool_decide (map_Forall (λ _ x, x = value) (entries m))))
    as Hdirty.
  { apply eq_true_iff_eq. unfold m1. rewrite foldl_set_dirty.
    rewrite orb_true_iff, negb_true_iff, bool_decide_eq_false.
    apply or_iff_compat_l. split.
    - intros (k & Hk & Hne) Hall. apply elem_of_keys in Hk as [x Hx].
      apply Hne. unfold get. rewrite Hx. simpl. by eapply Hall.
    - intros Hnot. apply map_not_Forall in Hnot as (k & x & Hx & Hne); [|apply _].
      exists k. split; [apply elem_of_keys; by exists x|].
      unfold get. rewrite Hx. done. }
  assert (saved m1 = saved m) as Hsaved by apply foldl_set_saved.
  unfold save. rewrite <- Hdirty. destruct (dirty m1) eqn:Hd; simpl.
  - by rewrite Hentries, Hsaved.
  - by rewrite Hd, Hentries, Hsaved.
Qed.

(** C5, as stated, fails on the clean ledger loaded with [{"dev-1": true}]:
    it has a key, [setAll(true)] leaves it as it is, and the persistence
    sink is not called. *)
Lemma setAll_clean_ledger_no_save :
  entries Samples.ledger = {[ "dev-1" := VBool true ]}
  ∧ isDirty Samples.ledger = false
  ∧ saved Samples.ledger = []
  ∧ saved (setAll Samples.ledger (VBool true)) = [].
Proof. split_and!; reflexivity. Qed.

Example setAll_dirty_ledger_saves_once :
  saved (setAll (set Samples.ledger "dev-2" (VBool false)) (VBool true))
  = [ {[ "dev-1" := VBool true; "dev-2" := VBool true ]} ].
Proof. by vm_compute. Qed.

End LedgerFacts.

(** ** Characteristics of a service *)

Lemma find_first_update_eq klass f cs :
  (∀ c, ch_type (f c) = ch_type c) →
  find_first klass (update_first klass f cs) = f <$> find_first klass cs.
Proof.
  intros Hf. induction cs as [|c cs IH]; simpl; [done|].
  destruct (decide (ch_type c = klass)) as [Hc|Hc]; simpl.
  - by rewrite Hf, decide_True.
  - by rewrite decide_False.
Qed.

Lemma find_first_update_ne klass klass' f cs :
  (∀ c, ch_type (f c) = ch_type c) → klass ≠ klass' →
  find_first klass' (update_first klass f cs) = find_first klass' cs.
Proof.
  intros Hf Hne. induction cs as [|c cs IH]; simpl; [done|].
  destruct (decide (ch_type c = klass)) as [Hc|Hc]; simpl.
  - rewrite Hf. rewrite !decide_False by congruence. done.
  - by rewrite IH.
Qed.

Lemma find_first_app klass cs cs' :
  find_first klass (cs ++ cs') = first_of (find_first klass cs) (find_first klass cs').
Proof.
  induction cs as [|c cs IH]; simpl; [by destruct (find_first klass cs')|].
  by case_decide.
Qed.

Lemma find_first_None klass cs : klass ∉ ch_type <$> cs → find_first klass cs = None.
Proof.
  induction cs as [|c cs IH]; simpl; [done|].
  intros Hn. rewrite decide_False.
  - apply IH. intros ?. apply Hn. by right.
  - intros <-. apply Hn. by left.
Qed.

Lemma find_first_Some klass cs :
  klass ∈ ch_type <$> cs → ∃ c, find_first klass cs = Some c ∧ ch_type c = klass.
Proof.
  induction cs as [|c cs IH]; simpl.
  - by intros ?%elem_of_nil.
  - intros Hin. case_decide; [by eauto|].
    apply elem_of_cons in Hin as [?|?]; [congruence | by apply IH].
Qed.

Lemma find_ensure_eq klass s :
  ∃ c, find_characteristic klass (ensure_characteristic klass s) = Some c.
Proof.
  unfold find_characteristic, ensure_characteristic, has_characteristic.
  case_bool_decide as Hin.
  - destruct (find_first_Some _ _ Hin) as (c & ? & _). eauto.
  - simpl. rewrite find_first_app, find_first_None by done. simpl.
    rewrite decide_True by done. eauto.
Qed.

Lemma find_ensure_ne klass klass' s :
  klass ≠ klass' →
  find_characteristic klass' (ensure_characteristic klass s) = find_characteristic klass' s.
Proof.
  intros Hne. unfold find_characteristic, ensure_characteristic.
  destruct (has_characteristic klass s); [done|]. simpl.
  rewrite find_first_app. simpl. rewrite decide_False by done.
  by destruct (find_first klass' (svc_characteristics s)).
Qed.

Lemma find_update_eq klass f s :
  (∀ c, ch_type (f c) = ch_type c) →
  find_characteristic klass (update_characteristic klass f s)
  = f <$> find_characteristic klass s.
Proof. intros. by apply find_first_update_eq. Qed.

Lemma find_update_ne klass klass' f s :
  (∀ c, ch_type (f c) = ch_type c) → klass ≠ klass' →
  find_characteristic klass' (update_characteristic klass f s)
  = find_characteristic klass' s.
Proof. intros. by apply find_first_update_ne. Qed.

(** ** Running method bodies *)

Lemma bind_ok {A B} (m : M A) (k : A → M B) h r h' :
  (m ≫= k) h = (Ok r, h') → ∃ a h1, m h = (Ok a, h1) ∧ k a h1 = (Ok r, h').
Proof.
  unfold mbind, M_bind. destruct (m h) as [[a|e] h1]; [by eauto | done].
Qed.

Lemma mret_ok {A} (a r : A) h h' : mret (M := M) a h = (Ok r, h') → r = a ∧ h' = h.
Proof. by intros [= -> ->]. Qed.


Lemma service_step_refl service h : service_step service id h h.
Proof. by split_and!. Qed.

Lemma service_step_trans service f g h1 h2 h3 :
  service_step service f h1 h2 → service_step service g h2 h3 →
  service_step service (g ∘ f) h1 h3.
Proof.
  intros (H1 & ? & ?) (H2 & ? & ?). split_and!; [|congruence..].
  intros s Hs. apply H2, H1, Hs.
Qed.

Lemma log_step service indent msg h r h' :
  log indent msg h = (Ok r, h') → service_step service id h h'.
Proof. intros [= _ <-]. by split_and!. Qed.

Section BinderSteps.
Context `{Externals}.

Lemma modify_service_ok service f h r h' :
  modify_service service f h = (Ok r, h') →
  is_Some (service_at h service) ∧ service_step service f h h'.
Proof.
  unfold modify_service, with_accessory, service_at.
  destruct (md_accessory h) as [a|] eqn:Ha; simpl; [|done].
  destruct (acc_services a !! service) as [s|] eqn:Hs; [|done].
  intros [= _ <-]. split; [by eauto|]. split_and!; [|done..].
  intros s' Hs'. unfold service_at in *. rewrite Ha in Hs'. simpl in *.
  rewrite Hs in Hs'. injection Hs' as <-.
  apply list_lookup_insert_eq. by eapply lookup_lt_Some.
Qed.
End BinderSteps.


Lemma install_handlers_other map service capability isTrigger getter setter
  wait immediate klass klass' s :
  klass ≠ klass' →
  find_characteristic klass'
    (install_handlers map service capability isTrigger getter setter wait immediate klass s)
  = find_characteristic klass' s.
Proof.
  intros Hne. unfold install_handlers.
  destruct (map_onUpdate map), isTrigger, getter, setter;
    rewrite ?find_update_ne by (done || by intros []); by apply find_ensure_ne.
Qed.

Lemma install_handlers_same map service capability getter setter wait immediate klass s :
  ∃ ch,
    find_characteristic klass
      (install_handlers map service capability false getter setter wait immediate klass s)
    = Some ch
    ∧ (∀ g, getter = Some g →
         ch_onGet ch = Some {| rh_capability := capability; rh_getter := g;
                               rh_service := service; rh_characteristic := klass |})
    ∧ (∀ st, setter = Some st →
         ch_onSet ch = Some {| wh_capability := capability; wh_setter := st;
                               wh_service := service; wh_characteristic := klass;
                               wh_debounce := debounce wait immediate |}).
Proof.
  unfold install_handlers. destruct (find_ensure_eq klass s) as [c Hc].
  destruct (map_onUpdate map), getter, setter;
    rewrite ?find_update_eq by (by intros []); rewrite Hc; simpl;
    eexists; (split; [reflexivity|]); split; intros ? [=]; by subst.
Qed.

Ltac invert_ok service :=
  repeat match goal with
    | H : (_ ≫= _) _ = (Ok _, _) |- _ =>
        let H1 := fresh "Hstep" in
        apply bind_ok in H as (? & ? & H1 & H)
    | H : mret _ _ = (Ok _, _) |- _ => apply mret_ok in H as [-> ->]
    | H : modify_service _ _ _ = (Ok _, _) |- _ => apply modify_service_ok in H as [? H]
    | H : log _ _ _ = (Ok _, _) |- _ => apply (log_step service) in H
    end.

Ltac chain_steps :=
  unfold service_step in *; destruct_and?;
  split_and!; [| congruence ..];
  let s := fresh "s" in
  let Hs := fresh "Hs" in
  intros s Hs;
  repeat match goal with
    | Hf : ∀ s', service_at ?h ?i = Some s' → _, Hs' : service_at ?h ?i = Some _ |- _ =>
        apply Hf in Hs'; clear Hf
    end;
  try exact Hs.

Section BinderFacts.
Context `{Externals}.

Lemma bind_characteristic_ok map service capability isTrigger getter setter
  wait immediate klass h r h' :
  bind_characteristic map service capability isTrigger getter setter
                      wait immediate klass h = (Ok r, h') →
  r = klass
  ∧ is_Some (service_at h service)
  ∧ service_step service
      (install_handlers map service capability isTrigger getter setter
                        wait immediate klass) h h'.
Proof.
  unfold bind_characteristic, install_handlers. intros Hrun.
  apply bind_ok in Hrun as (? & h1 & Hfirst & Hrun).
  apply modify_service_ok in Hfirst as [Hsome Hfirst].
  split_and!; [| done |].
  - destruct (map_onUpdate map), isTrigger, getter, setter;
      invert_ok service; done.
  - destruct (map_onUpdate map), isTrigger, getter, setter;
      invert_ok service; chain_steps.
Qed.
End BinderFacts.

Section HandlerFacts.
Context `{Externals}.

Lemma bind_characteristic_installs map service capability getter setter
  wait immediate klass h r h' :
  bind_characteristic map service capability false getter setter
                      wait immediate klass h = (Ok r, h') →
  ∃ ch,
    lookup_characteristic h' service klass = Some ch
    ∧ (∀ g, getter = Some g →
         ch_onGet ch = Some {| rh_capability := capability; rh_getter := g;
                               rh_service := service; rh_characteristic := klass |})
    ∧ (∀ st, setter = Some st →
         ch_onSet ch = Some {| wh_capability := capability; wh_setter := st;
                               wh_service := service; wh_characteristic := klass;
                               wh_debounce := debounce wait immediate |}).
Proof.
  intros (_ & [s Hs] & Hstep & _)%bind_characteristic_ok.
  apply Hstep in Hs.
  destruct (install_handlers_same map service capability getter setter
              wait immediate klass s) as (ch & Hch & Hget & Hset).
  exists ch. split_and!; [|done..].
  unfold lookup_characteristic. rewrite Hs. simpl. exact Hch.
Qed.


Lemma run_onSet_rejected (wh : WriteHandler) rawValue value e later :
  wh_setter wh rawValue {| ctx_device := md_device later;
                           ctx_service := wh_service wh;
                           ctx_capability := None;
                           ctx_characteristic := wh_characteristic wh |} = Ok value →
  ∃ later',
    run_onSet wh rawValue (Throw e) later = (Ok (), later')
    ∧ capability_value (md_device later') (wh_capability wh) = value
    ∧ dev_requests (md_device later')
      = dev_requests (md_device later) ++ [ (wh_capability wh, value) ]
    ∧ md_log later' = md_log later.
Proof.
  intros Hset. unfold run_onSet, mbind, M_bind, read, lift, modify, mret, M_ret.
  rewrite Hset. eexists. split_and!; [reflexivity | | done..].
  unfold capability_value, updateCapability; simpl. by rewrite lookup_insert_eq.
Qed.

(** C7, as amended.  When the device rejects the write that the installed
    write handler requests, the rejection is dropped without a log line:
    the handler completes normally, the write was requested, and the cached
    value of the capability is the setter's result. *)
Theorem write_handler_suppresses_rejection map service capability getter
  wait immediate klass (st : Fn) h r h' :
  bind_characteristic map service capability false getter (Some st)
                      wait immediate klass h = (Ok r, h') →
  ∃ ch wh,
    lookup_characteristic h' service klass = Some ch
    ∧ ch_onSet ch = Some wh
    ∧ ∀ (later : MappedDevice) (rawValue value : jsval) (e : error),
        st rawValue {| ctx_device := md_device later; ctx_service := service;
                       ctx_capability := None; ctx_characteristic := klass |}
        = Ok value →
        ∃ later',
          run_onSet wh rawValue (Throw e) later = (Ok (), later')
          ∧ capability_value (md_device later') capability = value
          ∧ dev_requests (md_device later')
            = dev_requests (md_device later) ++ [ (capability, value) ]
          ∧ md_log later' = md_log later.
Proof.
  intros (ch & Hch & _ & Hset)%bind_characteristic_installs.
  eexists ch, _. split_and!; [done | by apply Hset |].
  intros later rawValue value e Hst.
  by apply (run_onSet_rejected
              {| wh_capability := capability; wh_setter := st; wh_service := service;
                 wh_characteristic := klass;
                 wh_debounce := debounce wait immediate |}).
Qed.
End HandlerFacts.

Section DebounceFacts.
Context `{Externals}.

Lemma map_each_bind_ok map service capability isTrigger getter setter wait immediate
  (l : list string) : ∀ h rs h',
  map_each (bind_characteristic map service capability isTrigger getter setter
                                wait immediate) l h = (Ok rs, h') →
  rs = l
  ∧ md_listeners h' = md_listeners h
  ∧ md_device h' = md_device h
  ∧ (l ≠ [] → is_Some (service_at h service))
  ∧ ∀ s, service_at h service = Some s →
      ∃ s', service_at h' service = Some s'
        ∧ (∀ k, k ∉ l → find_characteristic k s' = find_characteristic k s)
        ∧ (isTrigger = false → ∀ k st, k ∈ l → setter = Some st →
             ∃ ch, find_characteristic k s' = Some ch
                   ∧ ch_onSet ch
                     = Some {| wh_capability := capability; wh_setter := st;
                               wh_service := service; wh_characteristic := k;
                               wh_debounce := debounce wait immediate |}).
Proof.
  induction l as [|k l IH]; intros h rs h' Hrun; simpl in Hrun.
  - apply mret_ok in Hrun as [-> ->]. split_and!; [done..|].
    intros s Hs. exists s. split_and!; [done | done |].
    intros _ k st Hk. by apply elem_of_nil in Hk.
  - apply bind_ok in Hrun as (y & h1 & Hfirst & Hrun).
    apply bind_ok in Hrun as (ys & h2 & Hrest & Hrun).
    apply mret_ok in Hrun as [-> ->].
    apply bind_characteristic_ok in Hfirst as (-> & Hsome & Hstep & Hl1 & Hd1).
    apply IH in Hrest as (-> & Hl2 & Hd2 & _ & Hpost).
    split_and!; [done | congruence | congruence | done |].
    intros s Hs. apply Hstep in Hs.
    destruct (Hpost _ Hs) as (s' & Hs' & Hframe & Hset).
    exists s'. split_and!; [done | |].
    + intros k' Hk'. rewrite Hframe.
      * apply install_handlers_other. intros ->. apply Hk'. by left.
      * intros ?. apply Hk'. by right.
    + intros -> k' st Hk' ->.
      destruct (decide (k' ∈ l)) as [Hin|Hout]; [by eapply Hset|].
      apply elem_of_cons in Hk' as [->|?]; [|done].
      rewrite Hframe by done.
      destruct (install_handlers_same map service capability getter (Some st)
                  wait immediate k s) as (ch & Hch & _ & Hst).
      exists ch. split; [exact Hch | by apply Hst].
Qed.

(** C9.  For a characteristic binding, the subscription callback and every
    write handler that the binder installs is debounced with the binding's
    [debounce] field when that is truthy and with [0] otherwise, in
    immediate (leading-edge) mode exactly when the field is falsy ([0] or
    absent) and in trailing-edge mode when it is truthy. *)
Theorem binding_debounce_polarity map service capability isTrigger
  (cm : CharacteristicMap) h r h' :
  bind_characteristicMap map service capability isTrigger cm h = (Ok r, h') →
  let field := cm_debounce cm in
  let wait := if truthy field then field else VNum 0 in
  let immediate := negb (truthy field) in
  let given := if bool_decide (capability ∈ dev_capabilities (md_device h))
               then 0 else 1 in
  (∃ ci, md_listeners h' = md_listeners h ++ [ ci ]
         ∧ ci_capability ci = capability
         ∧ ci_debounce ci = debounce wait immediate)
  ∧ (isTrigger = false →
     ∀ klass st,
       klass ∈ flat1 (cm_characteristics cm) →
       mjoin (flat_fns (cm_set cm) !! given) = Some st →
       ∃ ch wh,
         lookup_characteristic h' service klass = Some ch
         ∧ ch_onSet ch = Some wh
         ∧ wh_capability wh = capability
         ∧ wh_debounce wh = debounce wait immediate).
Proof.
  intros Hrun field wait immediate given.
  unfold bind_characteristicMap in Hrun.
  apply bind_ok in Hrun as (device & h0 & [= <- <-] & Hrun).
  apply bind_ok in Hrun as (chars & h1 & Heach & [= _ <-]).
  fold field given in Heach.
  assert ((if truthy field then false else true) = immediate) as Himm
    by (unfold immediate; by destruct (truthy field)).
  rewrite Himm in *. change (js_or field (VNum 0)) with wait in *.
  apply map_each_bind_ok in Heach as (-> & Hl & Hd & Hsome & Hpost).
  split.
  - eexists. simpl. rewrite Hl. split_and!; [reflexivity | reflexivity |].
    simpl. unfold wait, immediate, js_or. fold field. by destruct (truthy field).
  - intros -> klass st Hklass Hst.
    destruct Hsome as [s Hs]. { intros Hnil. rewrite Hnil in Hklass. by apply elem_of_nil in Hklass. }
    destruct (Hpost s Hs) as (s' & Hs' & _ & Hset).
    destruct (Hset eq_refl klass st Hklass Hst) as (ch & Hch & Hon).
    eexists ch, _. split_and!; [| exact Hon | done | done].
    unfold lookup_characteristic, service_at in *. simpl. by rewrite Hs'.
Qed.
End DebounceFacts.

(** ** The handle: caching and teardown *)


Lemma log_kept_bind {A B} (m : M A) (k : A → M B) :
  log_kept m → (∀ a, log_kept (k a)) → log_kept (m ≫= k).
Proof.
  intros Hm Hk h. unfold mbind, M_bind. specialize (Hm h).
  destruct (m h) as [[a|e] h1]; simpl in *; [|done]. by rewrite Hk.
Qed.

Lemma log_kept_for_each {A} (body : A → M unit) (l : list A) :
  (∀ x, log_kept (body x)) → log_kept (for_each body l).
Proof.
  intros Hbody. induction l as [|x l IH]; simpl; [done|].
  apply log_kept_bind; [apply Hbody | by intros].
Qed.

Section TeardownFacts.
Context `{Externals}.

Lemma log_kept_modify_service service f : log_kept (modify_service service f).
Proof.
  intros h. unfold modify_service, with_accessory.
  destruct (md_accessory h) as [a|]; [|done].
  by destruct (acc_services a !! service).
Qed.

Lemma capability_update_log ci v h :
  md_log (capability_update ci v h).2
  = md_log h ++ [ (0, LogCapabilityUpdate (ci_capability ci) v) ].
Proof.
  unfold capability_update.
  change ((log 0 (LogCapabilityUpdate (ci_capability ci) v) ≫= ?k) h)
    with (k () (set_md_log (md_log h ++ [ (0, LogCapabilityUpdate (ci_capability ci) v) ]) h)).
  cbv beta.
  match goal with |- md_log (?m ?h0).2 = _ => assert (log_kept m) as Hk end.
  { apply log_kept_bind.
    - apply log_kept_for_each. intros name.
      apply log_kept_bind; [done|]. intros device.
      apply log_kept_bind; [by destruct (ci_getter ci)|]. intros value.
      case_decide; [done|].
      apply log_kept_bind; [done|]. intros. apply log_kept_modify_service.
    - done. }
  by rewrite Hk.
Qed.

Lemma notify_destroyed capability value h i :
  Forall (λ ci, ci_destroyed ci = true) (md_listeners h) →
  notify_listener capability value h i = h.
Proof.
  intros Hall. unfold notify_listener.
  destruct (md_listeners h !! i) as [ci|] eqn:Hi; [|done].
  rewrite Forall_lookup in Hall. by rewrite (Hall _ _ Hi).
Qed.

Lemma capability_changed_destroyed capability value h :
  Forall (λ ci, ci_destroyed ci = true) (md_listeners h) →
  capability_changed capability value h = h.
Proof.
  intros Hall. unfold capability_changed.
  induction (seq 0 (length (md_listeners h))) as [|i l IH]; simpl; [done|].
  by rewrite notify_destroyed.
Qed.

Lemma cleanup_all_destroyed h :
  Forall (λ ci, ci_destroyed ci = true) (md_listeners (cleanup h)).
Proof. unfold cleanup; simpl. by apply Forall_fmap, Forall_true. Qed.
End TeardownFacts.

Section HandleFacts.
Context `{Externals}.

(** C2.  When the handle already holds an accessory, [accessorize] returns
    that accessory and leaves the handle exactly as it was: no service, no
    characteristic, no handler and no capability listener is added. *)
Theorem accessorize_cached (h : MappedDevice) (a : Accessory) :
  md_accessory h = Some a → accessorize h = (Ok a, h).
Proof. intros Ha. unfold accessorize. by rewrite Ha. Qed.

(** A call that succeeds leaves the accessory it returns in the handle, so
    calling again changes nothing. *)
Lemma accessorize_idempotent (h h' : MappedDevice) (a : Accessory) :
  accessorize h = (Ok a, h') → accessorize h' = (Ok a, h').
Proof.
  unfold accessorize at 1.
  destruct (md_accessory h) as [c|] eqn:Hc.
  - intros [= <- <-]. unfold accessorize. by rewrite Hc.
  - destruct (createAccessory h) as [acc|e]; [|done].
    intros Hrun.
    apply bind_ok in Hrun as (groups & h1 & _ & Hrun).
    apply bind_ok in Hrun as (maps & h2 & _ & Hrun).
    apply bind_ok in Hrun as (? & h3 & _ & Hrun).
    unfold with_accessory in Hrun.
    destruct (md_accessory h3) as [a3|]; [|done].
    injection Hrun as <- <-. reflexivity.
Qed.

(** C8, as amended.  [cleanup()] destroys every capability listener of the
    handle at once, so a later capability change of the device reaches no
    callback; it does not cancel the debounce timers: a call that is
    pending when [cleanup()] runs still invokes its callback when the
    timer elapses. *)
Theorem cleanup_destroys_listeners_keeps_timers (h : MappedDevice) :
  Forall (λ ci, ci_destroyed ci = true) (md_listeners (cleanup h))
  ∧ (∀ es, Forall (λ e, ∃ capability value, e = CapabilityChanged capability value) es →
           run (cleanup h) es = cleanup h)
  ∧ (∀ i ci v,
       md_listeners h !! i = Some ci →
       db_pending (ci_debounce ci) = Some v →
       md_log (step (cleanup h) (ListenerTimer i))
       = md_log (cleanup h) ++ [ (0, LogCapabilityUpdate (ci_capability ci) v) ]).
Proof.
  split_and!.
  - apply cleanup_all_destroyed.
  - intros es Hes. unfold run.
    induction Hes as [|e es (capability & value & ->) _ IH]; simpl; [done|].
    rewrite capability_changed_destroyed; [done | apply cleanup_all_destroyed].
  - intros i ci v Hi Hv. simpl. unfold listener_timer.
    assert (md_listeners (cleanup h) !! i = Some (destroy ci)) as ->.
    { unfold cleanup; simpl. by rewrite list_lookup_fmap, Hi. }
    unfold db_timer. simpl. rewrite Hv. by rewrite capability_update_log.
Qed.
End HandleFacts.

Section ApplicationFacts.
Context `{Externals} `{AppExternals}.

(** C10.  For a device that passes the readiness guard (not one of the
    application's own, ready, with a capabilities object) and that the
    mapper cannot map, [addDeviceToHomeKit] answers [false] and the
    exposure ledger holds [false] for the device. *)
Theorem unmappable_device_recorded_false (d : Device) (app : App) :
  isVirtualDevice (Some d) = false →
  dev_ready d = true →
  is_Some (dev_capabilitiesObj d) →
  mapDevice d = None →
  (addDeviceToHomeKit (Some d) app).1 = VBool false
  ∧ StorageBackedMap.has (app_exposed (addDeviceToHomeKit (Some d) app).2) (dev_id d) = true
  ∧ StorageBackedMap.get (app_exposed (addDeviceToHomeKit (Some d) app).2) (dev_id d)
    = VBool false.
Proof.
  intros Hvirtual Hready Hobj Hmap. unfold addDeviceToHomeKit.
  rewrite Hvirtual, Hready, Hmap. rewrite bool_decide_eq_true_2 by done.
  cbn [negb orb].
  match goal with
  | |- context [if negb (StorageBackedMap.has ?m ?k) then ?x else ?y] =>
      generalize (if negb (StorageBackedMap.has m k) then x else y)
  end.
  intros app1. cbn [fst snd app_exposed set_app_exposed app_say].
  split_and!; [done | |].
  - unfold StorageBackedMap.has, StorageBackedMap.set. cbn [StorageBackedMap.entries].
    apply bool_decide_eq_true_2. rewrite lookup_insert_eq. by eexists.
  - rewrite LedgerFacts.get_set. by case_decide.
Qed.
End ApplicationFacts.

(** ** The properties on the sample light *)

Section OnTheSampleLight.
Import Samples.

Lemma accessorize_cached_witness :
  accessorize bound = (Ok accessory, bound).
Proof. apply (accessorize_cached bound accessory). by vm_compute. Defined.


Example read_scenario :
  run_onGet dim_read bound = Ok (VNum 40)
  ∧ run_onGet dim_read (set_md_device (updateCapability "dim" VNull dev1) bound)
    = Ok VNull
  ∧ run_onGet dim_read (set_md_device (set_capabilitiesObj None dev1) bound)
    = Throw (MissingCapabilityValue "dim").
Proof. split_and!; reflexivity. Qed.

Lemma write_handler_suppresses_rejection_witness :
  ∃ ch wh,
    lookup_characteristic rebound 1 "Brightness" = Some ch
    ∧ ch_onSet ch = Some wh
    ∧ ∀ (later : MappedDevice) (rawValue value : jsval) (e : error),
        from_percent rawValue {| ctx_device := md_device later; ctx_service := 1;
                                 ctx_capability := None;
                                 ctx_characteristic := "Brightness" |}
        = Ok value →
        ∃ later',
          run_onSet wh rawValue (Throw e) later = (Ok (), later')
          ∧ capability_value (md_device later') "dim" = value
          ∧ dev_requests (md_device later')
            = dev_requests (md_device later) ++ [ ("dim", value) ]
          ∧ md_log later' = md_log later.
Proof.
  apply (write_handler_suppresses_rejection light 1 "dim" (Some to_percent)
           (VNum 300) false "Brightness" from_percent bound "Brightness" rebound).
  by vm_compute.
Defined.

(** C7, as stated, fails where it says that the rejection is logged: the
    write handler of the sample light, on a write that the device rejects,
    completes and caches the attempted value, and the log has no new line. *)
Lemma rejected_write_not_logged :
  (lookup_characteristic bound 1 "Brightness" ≫= ch_onSet) = Some dim_write
  ∧ (run_onSet dim_write (VNum 75) (Throw (UserError "rejected")) bound).1 = Ok ()
  ∧ md_log (run_onSet dim_write (VNum 75) (Throw (UserError "rejected")) bound).2
    = md_log bound
  ∧ capability_value
      (md_device (run_onSet dim_write (VNum 75) (Throw (UserError "rejected")) bound).2)
      "dim"
    = VNum 7500.
Proof. split_and!; by vm_compute. Qed.

(** C8, as stated, fails on a pending trailing-edge timer: the sample light
    receives a new [dim] value (held by the 300 ms debounce), the handle is
    cleaned up, and when the timer elapses the callback still runs: it logs
    the update and overwrites the cached value. *)
Lemma callback_fires_after_cleanup :
  ci_destroyed <$> md_listeners (run bound [ CapabilityChanged "dim" (VNum 5000); Cleanup ])
  = [ true; true ]
  ∧ md_log (run bound [ CapabilityChanged "dim" (VNum 5000); Cleanup; ListenerTimer 1 ])
    = md_log (run bound [ CapabilityChanged "dim" (VNum 5000); Cleanup ])
        ++ [ (0, LogCapabilityUpdate "dim" (VNum 5000)) ]
  ∧ capability_value
      (md_device (run bound [ CapabilityChanged "dim" (VNum 5000); Cleanup ])) "dim"
    = VNum 4000
  ∧ capability_value
      (md_device (run bound [ CapabilityChanged "dim" (VNum 5000); Cleanup;
                              ListenerTimer 1 ])) "dim"
    = VNum 5000.
Proof. split_and!; by vm_compute. Qed.

Lemma binding_debounce_polarity_witness :
  (∃ ci, md_listeners rebound_binding = md_listeners bound ++ [ ci ]
         ∧ ci_capability ci = "dim"
         ∧ ci_debounce ci = debounce (VNum 300) false)
  ∧ (false = false →
     ∀ klass st,
       klass ∈ [ "Brightness" ] →
       mjoin ([ Some from_percent ] !! 0) = Some st →
       ∃ ch wh,
         lookup_characteristic rebound_binding 1 klass = Some ch
         ∧ ch_onSet ch = Some wh
         ∧ wh_capability wh = "dim"
         ∧ wh_debounce wh = debounce (VNum 300) false).
Proof.
  apply (binding_debounce_polarity light 1 "dim" false Dim bound () rebound_binding).
  by vm_compute.
Defined.

Example immediate_when_unspecified :
  (ci_debounce <$> md_listeners bound)
  = [ debounce (VNum 0) true; debounce (VNum 300) false ].
Proof. reflexivity. Qed.

Lemma unmappable_device_recorded_false_witness :
  (addDeviceToHomeKit (Some dev1) app).1 = VBool false
  ∧ StorageBackedMap.has (app_exposed (addDeviceToHomeKit (Some dev1) app).2) "dev-1" = true
  ∧ StorageBackedMap.get (app_exposed (addDeviceToHomeKit (Some dev1) app).2) "dev-1"
    = VBool false.
Proof.
  apply (unmappable_device_recorded_false dev1 app);
    [reflexivity | reflexivity | by eexists | reflexivity].
Defined.
End OnTheSampleLight.

(** * Further properties *)

(** ** The ledger: loading, saving, round trips *)

Module LedgerMore.
Import StorageBackedMap.

Lemma foldl_set_pairs (l : list (string * jsval)) : ∀ (m : t) (k : string),
  entries (foldl (λ m kv, set m kv.1 kv.2) m l) !! k
  = first_of (obj_get (reverse l) k) (entries m !! k).
Proof.
  induction l as [|[k0 v0] l IH] using rev_ind; intros m k.
  - simpl. by destruct (entries m !! k).
  - rewrite foldl_app, reverse_app. simpl.
    destruct (decide (k0 = k)) as [->|Hne].
    + by rewrite lookup_insert_eq.
    + rewrite lookup_insert_ne by done. apply IH.
Qed.

(** X1.  A ledger that has just been loaded is clean whatever it was loaded
    from, it holds for each key the value given for it (the last one, were a
    key given twice), and saving it calls the persistence sink not at all. *)
Theorem loaded_ledger_is_clean (data : option (list (string * jsval))) :
  isDirty (new data) = false
  ∧ (∀ k, entries (new data) !! k = obj_get (reverse (default [] data)) k)
  ∧ save (new data) = new data
  ∧ saved (save (new data)) = [].
Proof.
  split_and!; try done.
  intros k. unfold new. cbn [entries]. rewrite foldl_set_pairs.
  cbn [entries]. rewrite lookup_empty. by destruct (obj_get _ k).
Qed.

(** X2.  [save()] clears the dirty bit and keeps the entries; it hands the
    sink the whole current snapshot if and only if the ledger was dirty, and
    a second [save()] right after does nothing. *)
Theorem save_flushes_once (m : t) :
  isDirty (save m) = false
  ∧ entries (save m) = entries m
  ∧ saved (save m) = (if isDirty m then saved m ++ [ entries m ] else saved m)
  ∧ save (save m) = save m.
Proof.
  unfold save, isDirty. destruct (dirty m) eqn:Hd; simpl; rewrite ?Hd; done.
Qed.

(** X3.  What is set is what is read back, for that key only; a deleted key
    reads as [undefined] and is absent; and neither [set] nor [delete] ever
    calls the persistence sink. *)
Theorem set_delete_round_trip (m : t) (k k' : string) (v : jsval) :
  get (set m k v) k = v
  ∧ has (set m k v) k = true
  ∧ get (delete m k) k = VUndefined
  ∧ has (delete m k) k = false
  ∧ (k ≠ k' →
       get (set m k v) k' = get m k' ∧ has (set m k v) k' = has m k'
       ∧ get (delete m k) k' = get m k' ∧ has (delete m k) k' = has m k')
  ∧ saved (set m k v) = saved m
  ∧ saved (delete m k) = saved m.
Proof.
  unfold get, has, set, delete; simpl.
  rewrite lookup_insert_eq, lookup_delete_eq. split_and!.
  - done.
  - apply bool_decide_eq_true_2. by eexists.
  - done.
  - apply bool_decide_eq_false_2. by intros [??].
  - intros Hne. rewrite lookup_insert_ne, lookup_delete_ne by done. done.
  - done.
  - done.
Qed.

Lemma apply_op_clean (m : t) (op : ledger_op) :
  dirty (apply_op m op) = false →
  dirty m = false ∧ (∀ k, get (apply_op m op) k = get m k).
Proof.
  destruct op as [id v|id]; simpl; intros [Hd Hc]%orb_false_elim.
  - split; [done|]. intros k. apply bool_decide_eq_false_1 in Hc.
    apply dec_stable in Hc. unfold get in *. simpl.
    destruct (decide (id = k)) as [->|Hne].
    + by rewrite lookup_insert_eq.
    + by rewrite lookup_insert_ne.
  - split; [done|]. intros k. unfold get, has in *. simpl.
    apply bool_decide_eq_false_1 in Hc.
    destruct (decide (id = k)) as [->|Hne].
    + rewrite lookup_delete_eq. apply eq_None_not_Some in Hc. by rewrite Hc.
    + by rewrite lookup_delete_ne.
Qed.

Lemma apply_ops_saved (ops : list ledger_op) : ∀ m : t,
  saved (apply_ops m ops) = saved m.
Proof.
  unfold apply_ops. induction ops as [|op ops IH]; intros m; simpl; [done|].
  rewrite IH. by destruct op.
Qed.

(** X4.  The dirty bit is sound: if a ledger is still clean after any
    sequence of [set] and [delete] calls, then it was clean before and every
    key reads as it did before, so the save that is skipped would have
    written nothing new. *)
Theorem clean_after_mutations_means_unchanged (m : t) (ops : list ledger_op) :
  isDirty (apply_ops m ops) = false →
  isDirty m = false
  ∧ (∀ k, get (apply_ops m ops) k = get m k)
  ∧ save (apply_ops m ops) = apply_ops m ops.
Proof.
  unfold isDirty, apply_ops. revert m.
  induction ops as [|op ops IH]; intros m Hclean; simpl in *.
  - split_and!; [done | done |]. unfold save. by rewrite Hclean.
  - destruct (IH _ Hclean) as (Hd & Hget & Hsave).
    destruct (apply_op_clean _ _ Hd) as [Hd' Hget'].
    split_and!; [done | | done].
    intros k. by rewrite Hget, Hget'.
Qed.

Lemma clean_after_mutations_means_unchanged_witness :
  isDirty Samples.ledger = false
  ∧ (∀ k, get (apply_ops Samples.ledger
                 [ OpSet "dev-1" (VBool true); OpDelete "dev-2" ]) k
          = get Samples.ledger k)
  ∧ save (apply_ops Samples.ledger [ OpSet "dev-1" (VBool true); OpDelete "dev-2" ])
    = apply_ops Samples.ledger [ OpSet "dev-1" (VBool true); OpDelete "dev-2" ].
Proof.
  apply (clean_after_mutations_means_unchanged Samples.ledger
           [ OpSet "dev-1" (VBool true); OpDelete "dev-2" ]).
  reflexivity.
Defined.

Lemma setAll_record (m : t) (value : jsval) :
  setAll m value
  = {| entries := (λ _, value) <$> entries m;
       dirty := false;
       saved := if dirty m || negb (bool_decide (map_Forall (λ _ x, x = value) (entries m)))
                then saved m ++ [ (λ _, value) <$> entries m ]
                else saved m |}.
Proof.
  unfold setAll.
  set (m1 := foldl (λ m key, set m key value) m (keys m)).
  assert (entries m1 = (λ _, value) <$> entries m) as Hentries.
  { apply map_eq. intros i. unfold m1.
    rewrite LedgerFacts.foldl_set_lookup, lookup_fmap.
    case_decide as Hi; rewrite LedgerFacts.elem_of_keys in Hi.
    - destruct Hi as [x ->]. done.
    - apply eq_None_not_Some in Hi. by rewrite Hi. }
  assert (dirty m1
          = dirty m || negb (bool_decide (map_Forall (λ _ x, x = value) (entries m))))
    as Hdirty.
  { apply eq_true_iff_eq. unfold m1. rewrite LedgerFacts.foldl_set_dirty.
    rewrite orb_true_iff, negb_true_iff, bool_decide_eq_false.
    apply or_iff_compat_l. split.
    - intros (k & Hk & Hne) Hall. apply LedgerFacts.elem_of_keys in Hk as [x Hx].
      apply Hne. unfold get. rewrite Hx. simpl. by eapply Hall.
    - intros Hnot. apply map_not_Forall in Hnot as (k & x & Hx & Hne); [|apply _].
      exists k. split; [apply LedgerFacts.elem_of_keys; by exists x|].
      unfold get. rewrite Hx. done. }
  assert (saved m1 = saved m) as Hsaved by apply LedgerFacts.foldl_set_saved.
  unfold save. rewrite <- Hdirty. clearbody m1.
  destruct m1 as [e1 d1 s1]; simpl in *. rewrite Hentries, Hsaved.
  by destruct d1.
Qed.

(** X5.  [setAll] is idempotent: a second [setAll] with the same value
    changes nothing and calls the persistence sink not at all. *)
Theorem setAll_idempotent (m : t) (value : jsval) :
  setAll (setAll m value) value = setAll m value.
Proof.
  rewrite (setAll_record (setAll m value)). rewrite (setAll_record m). simpl.
  rewrite <- map_fmap_compose.
  rewrite bool_decide_eq_true_2; [done|].
  apply map_Forall_lookup. intros i x. rewrite lookup_fmap.
  destruct (entries m !! i); simpl; congruence.
Qed.

End LedgerMore.

(** ** Grouping and flattening *)

Lemma obj_set_keys {V} (o : list (string * V)) k v :
  (obj_set o k v).*1 = if decide (k ∈ o.*1) then o.*1 else o.*1 ++ [ k ].
Proof.
  induction o as [|[k0 v0] o IH]; cbn [obj_set].
  - case_decide as Hin; [by apply elem_of_nil in Hin | done].
  - rewrite !fmap_cons. cbn [fst].
    destruct (decide (k0 = k)) as [->|Hne]; rewrite ?fmap_cons; cbn [fst].
    + rewrite decide_True; [done | by left].
    + rewrite IH. destruct (decide (k ∈ o.*1)) as [Hin|Hout].
      * rewrite decide_True; [done | by right].
      * rewrite decide_False; [done|]. by intros [?|?]%elem_of_cons.
Qed.

Lemma obj_get_is_Some {V} (o : list (string * V)) k : is_Some (obj_get o k) ↔ k ∈ o.*1.
Proof.
  split.
  - intros [v Hv]. by eapply obj_get_Some_key.
  - intros Hin. destruct (obj_get o k) eqn:Hk; [by eexists|].
    by apply obj_get_None_key in Hk.
Qed.

Lemma obj_set_NoDup {V} (o : list (string * V)) k v :
  NoDup o.*1 → NoDup (obj_set o k v).*1.
Proof.
  intros Hnd. rewrite obj_set_keys. case_decide; [done|].
  apply NoDup_app. split_and!; [done | | apply NoDup_singleton].
  intros x Hx ->%list_elem_of_singleton. done.
Qed.

Lemma group_filed_caps acc cap g :
  caps_of (group_filed acc cap) g
  = caps_of acc g ++ (if decide ((split_capability cap).2 = g)
                      then [ (split_capability cap).1 ] else []).
Proof.
  unfold group_filed. destruct (split_capability cap) as [base group]. simpl.
  rewrite caps_of_set.
  destruct (decide (group = g)) as [->|Hne].
  - f_equal. unfold caps_of. destruct (obj_get acc g) eqn:Hg; [by rewrite Hg|].
    by rewrite obj_get_set_eq.
  - rewrite app_nil_r. destruct (obj_get acc group); [done|].
    by rewrite caps_of_set, decide_False.
Qed.

Lemma group_filed_keys acc cap :
  NoDup acc.*1 →
  NoDup (group_filed acc cap).*1
  ∧ ∀ g, g ∈ (group_filed acc cap).*1 ↔ g ∈ acc.*1 ∨ g = (split_capability cap).2.
Proof.
  intros Hnd. unfold group_filed. destruct (split_capability cap) as [base group]. simpl.
  split.
  - apply obj_set_NoDup. destruct (obj_get acc group); [done|]. by apply obj_set_NoDup.
  - intros g. rewrite !obj_set_keys.
    destruct (obj_get acc group) eqn:Hg.
    + apply obj_get_Some_key in Hg as Hin. rewrite decide_True by done.
      split; [by left | by intros [?| ->]].
    + apply obj_get_None_key in Hg as Hout.
      rewrite obj_set_keys. rewrite (decide_False (P := group ∈ acc.*1)) by done.
      rewrite decide_True by (apply elem_of_app; right; by left).
      rewrite elem_of_app, list_elem_of_singleton. done.
Qed.

Lemma group_fold (caps : list string) : ∀ acc,
  NoDup acc.*1 →
  NoDup (foldl group_filed acc caps).*1
  ∧ (∀ g, caps_of (foldl group_filed acc caps) g
          = caps_of acc g
            ++ (fst <$> filter (λ p, p.2 = g) (split_capability <$> caps)))
  ∧ (∀ g, g ∈ (foldl group_filed acc caps).*1
          ↔ g ∈ acc.*1 ∨ ∃ cap, cap ∈ caps ∧ (split_capability cap).2 = g).
Proof.
  induction caps as [|cap caps IH]; intros acc Hnd; simpl.
  - split_and!; [done | intros; by rewrite app_nil_r |].
    intros g. split; [by left|]. intros [?|(cap & Hin & _)]; [done|].
    by apply elem_of_nil in Hin.
  - destruct (group_filed_keys acc cap Hnd) as [Hnd' Hkeys].
    destruct (IH _ Hnd') as (Hnd'' & Hcaps & Hk). split_and!; [done | |].
    + intros g. rewrite Hcaps, group_filed_caps, <- app_assoc. f_equal.
      rewrite filter_cons. by case_decide.
    + intros g. rewrite Hk, Hkeys. split.
      * intros [[?| ->]|(c & Hin & Hc)]; [by left | |].
        -- right. exists cap. split; [by left | done].
        -- right. exists c. split; [by right | done].
      * intros [?|(c & [->|Hin]%elem_of_cons & Hc)]; [by left; left | by left; right |].
        right. by exists c.
Qed.

(** The grouping runs to its end exactly when no identifier carries a group
    key that [Object.prototype] defines; the accumulator never holds such a
    key itself. *)
Lemma reduce_group_step (caps : list string) : ∀ acc,
  NoDup acc.*1 →
  (∀ k, k ∈ acc.*1 → k ∉ Object_prototype) →
  (Forall (λ cap, (split_capability cap).2 ∉ Object_prototype) caps →
     reduce group_step caps acc = Ok (foldl group_filed acc caps))
  ∧ (Exists (λ cap, (split_capability cap).2 ∈ Object_prototype) caps →
     reduce group_step caps acc = Throw (TypeError "acc[group].push is not a function")).
Proof.
  induction caps as [|cap caps IH]; intros acc Hnd Hacc.
  - split; [done|]. by intros ?%Exists_nil.
  - cbn [reduce foldl].
    destruct (decide ((split_capability cap).2 ∈ Object_prototype)) as [Hin|Hout].
    + split; [intros [? _]%Forall_cons; done|]. intros _.
      rewrite group_step_throws; [done|]. split; [|done].
      destruct (obj_get acc (split_capability cap).2) eqn:Hg; [|done].
      apply obj_get_Some_key in Hg. by apply Hacc in Hg.
    + rewrite group_step_filed by (by intros [_ ?]). cbn [res_bind].
      destruct (group_filed_keys acc cap Hnd) as [Hnd' Hkeys].
      destruct (IH (group_filed acc cap) Hnd') as [Hok Hthrow].
      { intros k [?| ->]%Hkeys; [by apply Hacc | done]. }
      split.
      * intros [_ ?]%Forall_cons. by apply Hok.
      * intros [?|?]%Exists_cons; [done | by apply Hthrow].
Qed.

(** X6.  [groupCapabilities] partitions the visible capabilities in order
    unless an identifier carries a group key that [Object.prototype]
    defines.  Without such an identifier the list of a group is exactly the
    base capabilities of the visible identifiers that carry that group key,
    in the order in which they are visible; a group key is present only if
    some identifier carries it (no group is empty), and no key is listed
    twice.  With such an identifier the grouping throws a [TypeError]. *)
Theorem groupCapabilities_partitions_in_order (ui : option UI) (g : string) :
  (Forall (λ cap, (split_capability cap).2 ∉ Object_prototype) (visible_capabilities ui) →
     ∃ groups,
       groupCapabilities_of ui = Ok groups
       ∧ NoDup groups.*1
       ∧ caps_of groups g
         = (fst <$> filter (λ p, p.2 = g) (split_capability <$> visible_capabilities ui))
       ∧ (is_Some (obj_get groups g)
          ↔ ∃ cap, cap ∈ visible_capabilities ui ∧ (split_capability cap).2 = g))
  ∧ (Exists (λ cap, (split_capability cap).2 ∈ Object_prototype) (visible_capabilities ui) →
     ∃ e, groupCapabilities_of ui = Throw e).
Proof.
  unfold groupCapabilities_of.
  destruct (reduce_group_step (visible_capabilities ui) [] (NoDup_nil_2)) as [Hok Hthrow].
  { by intros k ?%elem_of_nil. }
  split; [|intros ?; eexists; by apply Hthrow].
  intros Hall. rewrite Hok by done. eexists. split; [done|].
  destruct (group_fold (visible_capabilities ui) [] (NoDup_nil_2)) as (Hnd & Hcaps & Hk).
  split_and!; [done | by rewrite Hcaps |].
  rewrite obj_get_is_Some, Hk. split; [|by right].
  intros [Hin|?]; [|done]. by apply elem_of_nil in Hin.
Qed.

Lemma filter_all {A} (P : A → Prop) `{∀ x, Decision (P x)} (l : list A) :
  (∀ x, x ∈ l → P x) → filter P l = l.
Proof.
  induction l as [|x l IH]; intros Hall; [done|].
  rewrite filter_cons, decide_True by (apply Hall; by left).
  f_equal. apply IH. intros y Hy. apply Hall. by right.
Qed.

Lemma StronglySorted_weaken {A} (R R' : A → A → Prop) (l : list A) :
  (∀ x y, R x y → R' x y) → StronglySorted R l → StronglySorted R' l.
Proof.
  intros Himpl. induction 1 as [|x l Hs IH Hall]; constructor; [done|].
  eapply Forall_impl; [exact Hall | apply Himpl].
Qed.

Lemma filter_agree {A} (P Q : A → Prop) `{∀ x, Decision (P x)} `{∀ x, Decision (Q x)}
  (l : list A) :
  (∀ x, x ∈ l → P x ↔ Q x) → filter P l = filter Q l.
Proof.
  induction l as [|x l IH]; intros Hall; [done|].
  rewrite !filter_cons.
  rewrite IH by (intros y Hy; apply Hall; by right).
  destruct (decide (P x)) as [HP|HP], (decide (Q x)) as [HQ|HQ]; try done.
  - exfalso. apply HQ, (Hall x); [by left | done].
  - exfalso. apply HP, (Hall x); [by left | done].
Qed.

Lemma StronglySorted_filter {A} (R : A → A → Prop) (P : A → Prop)
  `{∀ x, Decision (P x)} (l : list A) :
  StronglySorted R l → StronglySorted R (filter P l).
Proof.
  induction 1 as [|x l Hs IH Hall]; [constructor|].
  rewrite filter_cons. case_decide; [|done]. constructor; [done|].
  apply Forall_forall. intros y [_ Hy]%list_elem_of_filter.
  by eapply Forall_forall in Hall.
Qed.

Section FlattenShape.
Variable groups : list (string * list string).

Lemma flatten_fold_get (ks : list string) : ∀ acc,
  NoDup ks →
  (∀ k, k ∈ ks → obj_get (fa_groups acc) k = None) →
  (fa_groups (foldl (flatten_step groups) acc ks)).*1
  = (fa_groups acc).*1 ++ filter (λ k, k ≠ "__proto__") ks
  ∧ ∀ g,
      (g ∉ ks ∨ g = "__proto__" →
         obj_get (fa_groups (foldl (flatten_step groups) acc ks)) g
         = obj_get (fa_groups acc) g)
      ∧ (g ∈ ks → g ≠ "__proto__" →
         ∃ S : gset string,
           obj_get (fa_groups (foldl (flatten_step groups) acc ks)) g
           = Some (filter (λ c, ¬ obj_in S c) (caps_of groups g))).
Proof.
  induction ks as [|k ks IH]; intros acc Hnd Hfresh.
  - simpl. split; [by rewrite app_nil_r|]. intros g. split; [done|].
    by intros ?%elem_of_nil.
  - apply NoDup_cons in Hnd as [Hk Hnd]. cbn [foldl].
    assert (∀ g, g ≠ k ∨ g = "__proto__" →
                 obj_get (fa_groups (flatten_step groups acc k)) g
                 = obj_get (fa_groups acc) g) as Hstep.
    { intros g Hg. simpl. rewrite obj_get_assign.
      destruct (decide (k = "__proto__")) as [->|Hp]; [done|].
      rewrite decide_False; [done|]. intros ->. by destruct Hg. }
    destruct (IH (flatten_step groups acc k) Hnd) as [Hkeys Hget].
    { intros k' Hk'. rewrite Hstep; [apply Hfresh; by right|].
      left. by intros ->. }
    split.
    + rewrite Hkeys, filter_cons. simpl. unfold obj_assign.
      destruct (decide (k = "__proto__")) as [->|Hp].
      * by rewrite decide_False by (by intros ?).
      * rewrite decide_True by done. rewrite obj_set_keys, decide_False.
        -- by rewrite <- app_assoc.
        -- apply obj_get_None_key, Hfresh. by left.
    + intros g. destruct (Hget g) as [Hout Hin]. split.
      * intros [Hg| ->].
        -- rewrite Hout by (left; intros ?; apply Hg; by right).
           apply Hstep. left. intros ->. apply Hg. by left.
        -- rewrite Hout by (by right). apply Hstep. by right.
      * intros Hg Hp. destruct (decide (g ∈ ks)) as [?|Hnot]; [by apply Hin|].
        apply elem_of_cons in Hg as [->|?]; [|done].
        rewrite Hout by (by left). simpl. rewrite obj_get_assign.
        rewrite decide_False, decide_True by done. by eexists.
Qed.

Hypothesis keys_distinct : NoDup groups.*1.

Lemma sorted_keys_NoDup : NoDup (sort_by_length (Object_keys groups)).
Proof. unfold sort_by_length. by rewrite sort_by_perm, Object_keys_perm. Qed.

Lemma sorted_keys_elem g :
  g ∈ sort_by_length (Object_keys groups) ↔ is_Some (obj_get groups g).
Proof.
  unfold sort_by_length. by rewrite sort_by_perm, Object_keys_perm, obj_get_is_Some.
Qed.

Lemma flattenGroups_keys :
  (flattenGroups groups).*1
  = filter (λ k, k ≠ "__proto__") (sort_by_length (Object_keys groups)).
Proof.
  unfold flattenGroups.
  by destruct (flatten_fold_get (sort_by_length (Object_keys groups))
                 {| fa_groups := []; fa_seen := ∅ |} sorted_keys_NoDup
                 (λ _ _, eq_refl)) as [-> _].
Qed.

Lemma flattenGroups_get g :
  match obj_get groups g with
  | Some l =>
      if decide (g = "__proto__") then obj_get (flattenGroups groups) g = None
      else ∃ S : gset string,
             obj_get (flattenGroups groups) g = Some (filter (λ c, ¬ obj_in S c) l)
  | None => obj_get (flattenGroups groups) g = None
  end.
Proof.
  unfold flattenGroups.
  destruct (flatten_fold_get (sort_by_length (Object_keys groups))
              {| fa_groups := []; fa_seen := ∅ |} sorted_keys_NoDup
              (λ _ _, eq_refl)) as [_ Hget].
  destruct (Hget g) as [Hout Hin].
  destruct (obj_get groups g) as [l|] eqn:Hg.
  - case_decide as Hp; [by rewrite Hout by (by right)|].
    destruct Hin as [S HS]; [apply sorted_keys_elem; rewrite Hg; by eexists | done |].
    exists S. rewrite HS. unfold caps_of. by rewrite Hg.
  - rewrite Hout; [done|]. left. rewrite sorted_keys_elem, Hg. by intros [??].
Qed.

Lemma flattenGroups_no_proto : obj_get (flattenGroups groups) "__proto__" = None.
Proof.
  pose proof (flattenGroups_get "__proto__") as Hg.
  destruct (obj_get groups "__proto__"); [|done]. by rewrite decide_True in Hg.
Qed.

Lemma flattenGroups_no_inherited g c :
  c ∈ caps_of (flattenGroups groups) g → c ∉ Object_prototype.
Proof. by intros (? & _)%flattenGroups_find. Qed.

Lemma flatten_disjoint_get :
  (∀ c g g', c ∈ caps_of groups g → c ∈ caps_of groups g' → g = g') →
  ∀ g, obj_get (flattenGroups groups) g
       = if decide (g = "__proto__") then None
         else filter (λ c, c ∉ Object_prototype) <$> obj_get groups g.
Proof.
  intros Hdisjoint g. pose proof (flattenGroups_get g) as Hg.
  case_decide as Hp; [subst; apply flattenGroups_no_proto|].
  destruct (obj_get groups g) as [l|] eqn:Hl; [|done].
  rewrite ?decide_False in Hg by done.
  destruct Hg as [S HS]. rewrite HS. simpl. f_equal. apply filter_agree.
  intros c Hc. split; [unfold obj_in; tauto|]. intros Hname.
  assert (c ∈ caps_of groups g) as Hcg by (unfold caps_of; by rewrite Hl).
  assert (c ∈ caps_of (flattenGroups groups) g) as Hout.
  { apply flattenGroups_find; [done|]. split_and!; [done | done |].
    destruct (list_find_elem_of (λ g', c ∈ caps_of groups g')
                (sort_by_length (Object_keys groups)) g) as [[i g0] Hfind];
      [apply sorted_keys_elem; rewrite Hl; by eexists | done |].
    exists i. pose proof Hfind as (_ & Hg0 & _)%list_find_Some.
    by rewrite (Hdisjoint c g g0). }
  unfold caps_of in Hout. rewrite HS in Hout. simpl in Hout.
  by apply list_elem_of_filter in Hout as [? _].
Qed.
End FlattenShape.

(** X7.  Flattening keeps the group keys and only removes capabilities: the
    output has exactly the keys of the input other than [__proto__] (an
    assignment to that key replaces the prototype and adds no group), each
    once, inserted shortest first, and the list of each group is a sublist
    of its input list (same order, nothing new). *)
Theorem flattenGroups_keeps_keys_removes_only
  (groups : list (string * list string)) (g : string) :
  NoDup groups.*1 →
  (flattenGroups groups).*1
  = filter (λ k, k ≠ "__proto__") (sort_by_length (Object_keys groups))
  ∧ NoDup (flattenGroups groups).*1
  ∧ StronglySorted (λ a b, (String.length a ≤ String.length b)%nat)
                   (flattenGroups groups).*1
  ∧ (is_Some (obj_get (flattenGroups groups) g)
     ↔ is_Some (obj_get groups g) ∧ g ≠ "__proto__")
  ∧ caps_of (flattenGroups groups) g `sublist_of` caps_of groups g.
Proof.
  intros Hnd. rewrite flattenGroups_keys by done. split_and!.
  - done.
  - by apply NoDup_filter, sorted_keys_NoDup.
  - apply StronglySorted_filter. unfold sort_by_length.
    eapply StronglySorted_weaken;
      [|apply (sort_by_sorted (λ k, N.of_nat (String.length k)))].
    unfold key_le. intros; lia.
  - pose proof (flattenGroups_get groups Hnd g) as Hg.
    destruct (obj_get groups g) as [l|].
    + case_decide as Hp.
      * rewrite Hg. split; [by intros [??] | by intros [_ ?]].
      * destruct Hg as [S ->]. split; [intros _; split; [by eexists | done] | by eexists].
    + rewrite Hg. split; [by intros [??] | by intros [[??] _]].
  - pose proof (flattenGroups_get groups Hnd g) as Hg. unfold caps_of.
    destruct (obj_get groups g) as [l|].
    + case_decide as Hp.
      * rewrite Hg. simpl. apply sublist_nil_l.
      * destruct Hg as [S ->]. simpl. apply sublist_filter.
    + by rewrite Hg.
Qed.

Lemma flattenGroups_keeps_keys_removes_only_witness :
  let groups := [ ("b", [ "x"; "y" ]); ("", [ "y"; "z" ]); ("10", [ "x" ]) ] in
  (flattenGroups groups).*1
  = filter (λ k, k ≠ "__proto__") (sort_by_length (Object_keys groups))
  ∧ NoDup (flattenGroups groups).*1
  ∧ StronglySorted (λ a b, (String.length a ≤ String.length b)%nat)
                   (flattenGroups groups).*1
  ∧ (is_Some (obj_get (flattenGroups groups) "b")
     ↔ is_Some (obj_get groups "b") ∧ "b" ≠ "__proto__")
  ∧ caps_of (flattenGroups groups) "b" `sublist_of` caps_of groups "b".
Proof.
  intros groups. apply (flattenGroups_keeps_keys_removes_only groups "b"). compute_done.
Defined.

(** A group key [__proto__] of the input is lost, with the capabilities
    that only it lists; the groups after it still count them as taken. *)
Example flattenGroups_proto_key :
  flattenGroups [ ("__proto__", [ "onoff" ]); ("bathroom_1", [ "onoff"; "dim" ]) ]
  = [ ("bathroom_1", [ "dim" ]) ].
Proof. by vm_compute. Qed.

(** X8.  When no capability occurs in two groups, flattening removes
    nothing but the capabilities named like a member of [Object.prototype]
    (and the group [__proto__]): every other group keeps all its other
    capabilities, in order. *)
Theorem flattenGroups_disjoint_unchanged
  (groups : list (string * list string)) (g : string) :
  NoDup groups.*1 →
  (∀ c g1 g2, c ∈ caps_of groups g1 → c ∈ caps_of groups g2 → g1 = g2) →
  obj_get (flattenGroups groups) g
  = if decide (g = "__proto__") then None
    else filter (λ c, c ∉ Object_prototype) <$> obj_get groups g.
Proof. intros Hnd Hdisjoint. by apply flatten_disjoint_get. Qed.

(** X9.  Flattening is idempotent: flattening a flattened mapping gives each
    group the list it already has. *)
Theorem flattenGroups_idempotent (groups : list (string * list string)) (g : string) :
  NoDup groups.*1 →
  obj_get (flattenGroups (flattenGroups groups)) g = obj_get (flattenGroups groups) g.
Proof.
  intros Hnd. rewrite flatten_disjoint_get.
  - case_decide as Hp; [subst; by rewrite flattenGroups_no_proto|].
    destruct (obj_get (flattenGroups groups) g) as [l|] eqn:Hl; [|done].
    simpl. f_equal. apply filter_all. intros c Hc.
    apply (flattenGroups_no_inherited groups Hnd g). unfold caps_of. by rewrite Hl.
  - rewrite flattenGroups_keys by done. by apply NoDup_filter, sorted_keys_NoDup.
  - intros c g1 g2 (_ & _ & i & H1)%flattenGroups_find (_ & _ & j & H2)%flattenGroups_find;
      [|done..]. congruence.
Qed.

Lemma flattenGroups_idempotent_witness :
  let groups := [ ("b", [ "x"; "y" ]); ("", [ "y"; "z" ]); ("10", [ "x" ]) ] in
  obj_get (flattenGroups (flattenGroups groups)) "b" = obj_get (flattenGroups groups) "b".
Proof.
  intros groups. apply (flattenGroups_idempotent groups "b"). compute_done.
Defined.

(** ** Capability names: split and rebuilt *)

Lemma append_inj_l (s a b : string) : s +:+ a = s +:+ b → a = b.
Proof. apply (inj (String.append s)). Qed.

Lemma no_dot_after (s : string) : s = before_first_dot s → after_first_dot s = "".
Proof.
  induction s as [|c s IH]; simpl; [done|].
  destruct (decide (c = "."%char)); [done|]. intros [= ?]. by apply IH.
Qed.

Lemma dot_decompose (s : string) :
  s = before_first_dot s ∨ s = before_first_dot s +:+ "." +:+ after_first_dot s.
Proof.
  induction s as [|c s IH]; simpl; [by left|].
  destruct (decide (c = "."%char)) as [->|Hne]; [by right|].
  destruct IH as [IH|IH]; [left | right].
  - by rewrite <- IH.
  - change (String c s = String c (before_first_dot s +:+ "." +:+ after_first_dot s)).
    by rewrite <- IH.
Qed.

Lemma append_nil_r (s : string) : s +:+ "" = s.
Proof.
  induction s as [|c s IH]; [done|].
  change (String c (s +:+ "") = String c s). by rewrite IH.
Qed.

Lemma append_not_self (s t : string) : t ≠ "" → s +:+ t ≠ s.
Proof.
  intros Ht Heq. apply Ht, (append_inj_l s). by rewrite Heq, append_nil_r.
Qed.

(** X10.  The capability name that the binder rebuilds from a base
    capability and its group key is the visible identifier it was split from
    exactly when the identifier has no [.], or has a single [.] followed by a
    non-empty suffix; with a trailing [.] or a second [.] the binder works
    on another name than the one the device shows. *)
Theorem full_capability_round_trip (cap : string) :
  full_capability (split_capability cap).1 (split_capability cap).2 = cap
  ↔ cap = before_first_dot cap
    ∨ (after_first_dot cap ≠ ""
       ∧ before_first_dot (after_first_dot cap) = after_first_dot cap).
Proof.
  rewrite split_capability_spec. unfold full_capability. cbn [fst snd].
  split.
  - case_decide as Hgroup.
    + intros Heq. left. by rewrite append_nil_r in Heq.
    + intros Heq. right.
      destruct (dot_decompose cap) as [Hno|Hdot].
      * exfalso. rewrite Hno in Heq at 3.
        by apply (append_not_self (before_first_dot cap)
                    ("." +:+ before_first_dot (after_first_dot cap))).
      * rewrite Hdot in Heq at 3. do 2 apply append_inj_l in Heq.
        split; [congruence | done].
  - intros [Hno|[Hrest Hone]].
    + apply no_dot_after in Hno as Hafter. rewrite Hafter. cbn [before_first_dot].
      rewrite decide_True by done. by rewrite append_nil_r.
    + rewrite Hone, decide_False by done.
      destruct (dot_decompose cap) as [Hno|Hdot]; [|done].
      by apply no_dot_after in Hno.
Qed.

Example full_capability_trailing_dot :
  full_capability (split_capability "dim.").1 (split_capability "dim.").2 = "dim"
  ∧ full_capability (split_capability "onoff.a.b").1 (split_capability "onoff.a.b").2
    = "onoff.a"
  ∧ full_capability (split_capability "onoff.a").1 (split_capability "onoff.a").2
    = "onoff.a".
Proof. split_and!; reflexivity. Qed.

(** ** The sync bridge at run time, continued *)

Section RuntimeMore.
Context `{Externals}.

(** X11.  A setter that throws stops the write handler at once: no write is
    requested from the device and nothing changes (neither the cached value
    nor the log). *)
Theorem failing_setter_reaches_nothing (wh : WriteHandler) (rawValue : jsval)
  (response : res unit) (e : error) (h : MappedDevice) :
  wh_setter wh rawValue {| ctx_device := md_device h; ctx_service := wh_service wh;
                           ctx_capability := None;
                           ctx_characteristic := wh_characteristic wh |} = Throw e →
  run_onSet wh rawValue response h = (Throw e, h).
Proof.
  intros Hset. unfold run_onSet, mbind, M_bind, read, lift. by rewrite Hset.
Qed.

(** X12.  Read after write: once the write handler has run with a setter
    result that is not [undefined], a read handler for the same capability
    never fails with the missing-value error; it answers with its getter
    applied to the value the setter produced, whatever the device did with
    the write. *)
Theorem read_after_write (wh : WriteHandler) (rh : ReadHandler)
  (rawValue value : jsval) (response : res unit) (h : MappedDevice) :
  rh_capability rh = wh_capability wh →
  wh_setter wh rawValue {| ctx_device := md_device h; ctx_service := wh_service wh;
                           ctx_capability := None;
                           ctx_characteristic := wh_characteristic wh |} = Ok value →
  value ≠ VUndefined →
  ∃ h',
    run_onSet wh rawValue response h = (Ok (), h')
    ∧ run_onGet rh h'
      = res_bind (rh_getter rh value {| ctx_device := md_device h';
                                        ctx_service := rh_service rh;
                                        ctx_capability := None;
                                        ctx_characteristic := rh_characteristic rh |})
                 (validateUserInput (rh_characteristic rh)).
Proof.
  intros Hcap Hset Hvalue.
  unfold run_onSet, mbind, M_bind, read, lift, modify, mret, M_ret. rewrite Hset.
  eexists. split; [by destruct response as [[]|]|].
  unfold run_onGet. rewrite Hcap.
  unfold capability_value, updateCapability. simpl. rewrite lookup_insert_eq. simpl.
  by rewrite decide_False.
Qed.

(** X13.  A getter that answers with the no-value sentinel for every
    characteristic leaves the accessory untouched, and the raw value is
    still cached. *)
Theorem no_value_skips_characteristics (ci : CapabilityInstance) (g : Fn)
  (rawValue : jsval) (h : MappedDevice) :
  ci_getter ci = Some g →
  (∀ ctx, g rawValue ctx = Ok NO_VALUE) →
  ∃ h',
    capability_update ci rawValue h = (Ok (), h')
    ∧ md_accessory h' = md_accessory h
    ∧ capability_value (md_device h') (ci_capability ci) = rawValue.
Proof.
  intros Hg Hno. unfold capability_update. rewrite Hg.
  assert (∀ (l : list string) h0,
            for_each (λ name : string,
              device ← read md_device;
              value ← lift (g rawValue {| ctx_device := device;
                                          ctx_service := ci_service ci;
                                          ctx_capability := Some (ci_capability ci);
                                          ctx_characteristic := name |});
              if decide (value = NO_VALUE) then mret ()
              else v ← lift (validateUserInput name value);
                   updateValue (ci_service ci) name v) l h0 = (Ok (), h0)) as Hloop.
  { induction l as [|name l IH]; intros h0; simpl; [done|].
    unfold mbind, M_bind, read, lift at 1. rewrite Hno. simpl.
    fold (@mbind M _). apply IH. }
  unfold mbind at 1 2, M_bind, log, modify. rewrite Hloop.
  eexists. split; [reflexivity|]. split; [done|].
  unfold capability_value, updateCapability. simpl. by rewrite lookup_insert_eq.
Qed.

(** X14.  A subscription that was bound without a getter (a binding with a
    single getter for a capability the device does not list) fails on the
    first characteristic: the update is logged and then lost, nothing is
    pushed to the accessory and the raw value is not cached. *)
Theorem missing_getter_loses_update (ci : CapabilityInstance) (rawValue : jsval)
  (h : MappedDevice) :
  ci_getter ci = None →
  ci_characteristics ci ≠ [] →
  ∃ e h',
    capability_update ci rawValue h = (Throw e, h')
    ∧ md_accessory h' = md_accessory h
    ∧ md_device h' = md_device h
    ∧ md_log h' = md_log h ++ [ (0, LogCapabilityUpdate (ci_capability ci) rawValue) ].
Proof.
  intros Hg Hne. unfold capability_update. rewrite Hg.
  destruct (ci_characteristics ci) as [|name l]; [done|]. simpl.
  unfold mbind, M_bind, log, modify, read, throw. simpl.
  eexists _, _. split; [reflexivity|]. done.
Qed.
End RuntimeMore.

(** ** The binder: what a call leaves in the handle *)

Lemma keeps_accessory_bind {A B} (m : M A) (k : A → M B) :
  keeps_accessory m → (∀ a, keeps_accessory (k a)) → keeps_accessory (m ≫= k).
Proof.
  intros Hm Hk h Hh. unfold mbind, M_bind. specialize (Hm h Hh).
  destruct (m h) as [[a|e] h1]; simpl in *; [|done]. by apply Hk.
Qed.

Lemma keeps_accessory_for_each {A} (body : A → M unit) (l : list A) :
  (∀ x, keeps_accessory (body x)) → keeps_accessory (for_each body l).
Proof.
  intros Hbody. induction l as [|x l IH]; simpl; [by intros ??|].
  apply keeps_accessory_bind; [apply Hbody | by intros].
Qed.

Lemma keeps_accessory_for_fold {A S} (body : S → A → M S) (l : list A) : ∀ s,
  (∀ s x, keeps_accessory (body s x)) → keeps_accessory (for_fold body s l).
Proof.
  induction l as [|x l IH]; intros s Hbody; simpl; [by intros ??|].
  apply keeps_accessory_bind; [apply Hbody | intros; by apply IH].
Qed.

Lemma keeps_accessory_map_each {A B} (f : A → M B) (l : list A) :
  (∀ x, keeps_accessory (f x)) → keeps_accessory (map_each f l).
Proof.
  intros Hf. induction l as [|x l IH]; simpl; [by intros ??|].
  apply keeps_accessory_bind; [apply Hf | intros].
  apply keeps_accessory_bind; [exact IH | by intros ???].
Qed.

Section BinderMore.
Context `{Externals}.

Lemma keeps_accessory_with {A} (f : Accessory → res (A * Accessory)) :
  keeps_accessory (with_accessory f).
Proof.
  intros h [a Ha]. unfold with_accessory. rewrite Ha.
  destruct (f a) as [[x a']|e]; simpl; [by eexists | by rewrite Ha].
Qed.

Lemma keeps_accessory_try (body : M unit) (handler : error → M unit) :
  keeps_accessory body → (∀ e, keeps_accessory (handler e)) →
  keeps_accessory (try_catch body handler).
Proof.
  intros Hb Hh h Hsome. unfold try_catch. specialize (Hb h Hsome).
  destruct (body h) as [[[]|e] h1]; simpl in *; [done|]. by apply Hh.
Qed.

Lemma keeps_accessory_bind_characteristic map service capability isTrigger
  getter setter wait immediate klass :
  keeps_accessory (bind_characteristic map service capability isTrigger
                                       getter setter wait immediate klass).
Proof.
  unfold bind_characteristic, modify_service.
  repeat (apply keeps_accessory_bind; [|intros]);
    try apply keeps_accessory_with; try (by intros ??).
  - destruct (map_onUpdate map); [apply keeps_accessory_with | by intros ??].
  - destruct isTrigger; [by intros ??|].
    apply keeps_accessory_bind; [|intros].
    + destruct getter; [apply keeps_accessory_with | by intros ??].
    + destruct setter; [apply keeps_accessory_with | by intros ??].
Qed.

Lemma keeps_accessory_bind_map groups map : keeps_accessory (bind_map groups map).
Proof.
  unfold bind_map. apply keeps_accessory_bind; [by intros ??|]. intros _.
  apply keeps_accessory_for_each. intros [group capabilities]. unfold bind_group.
  apply keeps_accessory_bind; [by intros ??|]. intros _.
  apply keeps_accessory_bind.
  - apply keeps_accessory_for_fold. intros service prefix. unfold bind_capability.
    destruct (first_of _ _) as [characteristicMaps|]; [|by intros ??].
    apply keeps_accessory_bind.
    + unfold resolve_service. destruct service; [by intros ??|].
      apply keeps_accessory_bind; [by intros ??|]. intros device.
      apply keeps_accessory_bind; [apply keeps_accessory_with|]. intros found.
      apply keeps_accessory_bind.
      * destruct found; [destruct (map_group map)|];
          repeat (apply keeps_accessory_bind; [|intros]);
          try apply keeps_accessory_with; by intros ??.
      * intros s. apply keeps_accessory_bind; [|by intros ??].
        destruct (map_onService map); [apply keeps_accessory_with | by intros ??].
    + intros s. apply keeps_accessory_bind; [|by intros ??].
      apply keeps_accessory_for_each. intros cm. unfold bind_characteristicMap.
      apply keeps_accessory_bind; [by intros ??|]. intros device.
      apply keeps_accessory_bind; [|by intros ??].
      apply keeps_accessory_map_each. intros klass.
      apply keeps_accessory_bind_characteristic.
  - intros service. unfold adaptive_lighting.
    destruct service as [s|]; [|by intros ??]. destruct (map_adaptiveLighting map); [|by intros ??].
    apply keeps_accessory_try; [|by intros ??]. unfold modify_service.
    repeat (apply keeps_accessory_bind; [|intros]);
      try apply keeps_accessory_with; try (by intros ??).
    match goal with |- keeps_accessory (if ?b then _ else _) => destruct b end; [|by intros ??].
    repeat (apply keeps_accessory_bind; [|intros]);
      try apply keeps_accessory_with; by intros ??.
Qed.

Lemma createAccessory_ok (h : MappedDevice) :
  ∃ a, createAccessory h = Ok a
       ∧ acc_UUID a = uuid_generate (dev_id (md_device h))
       ∧ acc_displayName a = dev_name (md_device h)
       ∧ acc_category a = md_category h.
Proof. unfold createAccessory. simpl. eexists. split; [reflexivity|]. done. Qed.
End BinderMore.

Section BinderOutcomes.
Context `{Externals}.

(** X15.  A bind that throws is not retried: the accessory is cached before
    the maps are bound, so after a failed first call on a handle whose device
    has a name (the constructor gives it one) the handle holds the half-built
    accessory and the next call returns it as it is. *)
Theorem failed_bind_is_cached (h h' : MappedDevice) (e : error) :
  dev_name (md_device h) ≠ "" →
  md_accessory h = None →
  accessorize h = (Throw e, h') →
  ∃ a, md_accessory h' = Some a ∧ accessorize h' = (Ok a, h').
Proof.
  intros _ Hnone Hrun. unfold accessorize in Hrun. rewrite Hnone in Hrun.
  destruct (createAccessory_ok h) as (a0 & Ha0 & _). rewrite Ha0 in Hrun.
  match type of Hrun with ?m ?h0 = _ => assert (keeps_accessory m) as Hkeeps end.
  { apply keeps_accessory_bind; [by intros ??|]. intros groups.
    apply keeps_accessory_bind; [by intros ??|]. intros maps.
    apply keeps_accessory_bind; [|intros; apply keeps_accessory_with].
    apply keeps_accessory_for_each. intros map. apply keeps_accessory_bind_map. }
  specialize (Hkeeps (set_md_accessory (Some a0) h)). rewrite Hrun in Hkeeps.
  destruct Hkeeps as [a Ha]; [by eexists|]. simpl in Ha.
  exists a. split; [done|]. unfold accessorize. by rewrite Ha.
Qed.

Lemma bind_map_no_groups (map : CapabilityMap) (h : MappedDevice) :
  bind_map [] map h = (Ok (), set_md_log (md_log h ++ [ (0, LogMap (map_name map)) ]) h).
Proof. unfold bind_map. by destruct (map_group map). Qed.

Lemma bind_maps_no_groups (maps : list CapabilityMap) : ∀ h,
  for_each (bind_map []) maps h
  = (Ok (), set_md_log (md_log h ++ ((λ m, (0, LogMap (map_name m))) <$> maps)) h).
Proof.
  induction maps as [|map maps IH]; intros h; simpl.
  - rewrite app_nil_r. by destruct h.
  - unfold mbind, M_bind. rewrite bind_map_no_groups, IH. simpl.
    by rewrite <- app_assoc.
Qed.

(** X16.  A named device that shows no capability in its user interface (no
    [ui], no components, or only empty ones) still gets an accessory: the
    one [createAccessory] makes, with nothing but its information service,
    no subscription, and one log line per map. *)
Theorem nothing_visible_binds_nothing (h : MappedDevice) :
  dev_name (md_device h) ≠ "" →
  md_accessory h = None →
  visible_capabilities (dev_ui (md_device h)) = [] →
  ∃ a,
    createAccessory h = Ok a
    ∧ length (acc_services a) = 1
    ∧ accessorize h
      = (Ok a,
         set_md_log (md_log h ++ ((λ m, (0, LogMap (map_name m))) <$> md_maps h))
                    (set_md_accessory (Some a) h)).
Proof.
  intros _ Hnone Hvisible. unfold accessorize. rewrite Hnone.
  destruct (createAccessory_ok h) as (a & Ha & _). rewrite Ha.
  exists a. split; [done|]. split.
  { unfold createAccessory in Ha. simpl in Ha. injection Ha as <-. done. }
  unfold mbind, M_bind, read, groupCapabilities, groupCapabilities_of. simpl.
  rewrite Hvisible. simpl. by rewrite bind_maps_no_groups.
Qed.
End BinderOutcomes.

Section BinderOutcomesOnSamples.
Import Samples MoreSamples.

Lemma failed_bind_is_cached_witness :
  ∃ a, md_accessory (accessorize twice).2 = Some a
       ∧ accessorize (accessorize twice).2 = (Ok a, (accessorize twice).2).
Proof.
  apply (failed_bind_is_cached twice (accessorize twice).2 duplicate_service);
    [done | by vm_compute | by vm_compute].
Defined.

Lemma nothing_visible_binds_nothing_witness :
  ∃ a,
    createAccessory blind = Ok a
    ∧ length (acc_services a) = 1
    ∧ accessorize blind
      = (Ok a,
         set_md_log (md_log blind ++ ((λ m, (0, LogMap (map_name m))) <$> md_maps blind))
                    (set_md_accessory (Some a) blind)).
Proof. apply (nothing_visible_binds_nothing blind); [done | reflexivity | reflexivity]. Defined.
End BinderOutcomesOnSamples.

(** ** Every subscription of a bound handle *)

Section Preserves.
Context (P : MappedDevice → Prop).

Lemma preserves_bind {A B} (m : M A) (k : A → M B) :
  preserves P m → (∀ a, preserves P (k a)) → preserves P (m ≫= k).
Proof.
  intros Hm Hk h Hh. unfold mbind, M_bind. specialize (Hm h Hh).
  destruct (m h) as [[a|e] h1]; simpl in *; [|done]. by apply Hk.
Qed.

Lemma preserves_for_each {A} (body : A → M unit) (l : list A) :
  (∀ x, preserves P (body x)) → preserves P (for_each body l).
Proof.
  intros Hbody. induction l as [|x l IH]; simpl; [by intros ??|].
  apply preserves_bind; [apply Hbody | by intros].
Qed.

Lemma preserves_for_fold {A S} (body : S → A → M S) (l : list A) : ∀ s,
  (∀ s x, preserves P (body s x)) → preserves P (for_fold body s l).
Proof.
  induction l as [|x l IH]; intros s Hbody; simpl; [by intros ??|].
  apply preserves_bind; [apply Hbody | intros; by apply IH].
Qed.

Lemma preserves_map_each {A B} (f : A → M B) (l : list A) :
  (∀ x, preserves P (f x)) → preserves P (map_each f l).
Proof.
  intros Hf. induction l as [|x l IH]; simpl; [by intros ??|].
  apply preserves_bind; [apply Hf | intros].
  apply preserves_bind; [exact IH | by intros ???].
Qed.
End Preserves.

Section Polarity.
Context `{Externals}.

Local Abbreviation listeners_ok := (λ h : MappedDevice, Forall polarity_ok (md_listeners h)).

Lemma polarity_with {A} (f : Accessory → res (A * Accessory)) :
  preserves listeners_ok (with_accessory f).
Proof.
  intros h Hh. unfold with_accessory. destruct (md_accessory h) as [a|]; [|done].
  by destruct (f a) as [[x a']|e].
Qed.

Lemma polarity_try (body : M unit) (handler : error → M unit) :
  preserves listeners_ok body → (∀ e, preserves listeners_ok (handler e)) →
  preserves listeners_ok (try_catch body handler).
Proof.
  intros Hb Hh h Hok. unfold try_catch. specialize (Hb h Hok).
  destruct (body h) as [[[]|e] h1]; simpl in *; [done|]. by apply Hh.
Qed.

Lemma polarity_bind_characteristic map service capability isTrigger
  getter setter wait immediate klass :
  preserves listeners_ok (bind_characteristic map service capability isTrigger
                                              getter setter wait immediate klass).
Proof.
  unfold bind_characteristic, modify_service.
  repeat (apply preserves_bind; [|intros]);
    try apply polarity_with; try (by intros ??).
  - destruct (map_onUpdate map); [apply polarity_with | by intros ??].
  - destruct isTrigger; [by intros ??|].
    apply preserves_bind; [|intros].
    + destruct getter; [apply polarity_with | by intros ??].
    + destruct setter; [apply polarity_with | by intros ??].
Qed.

Lemma polarity_bind_characteristicMap map service capability isTrigger cm :
  preserves listeners_ok (bind_characteristicMap map service capability isTrigger cm).
Proof.
  unfold bind_characteristicMap.
  apply preserves_bind; [by intros ??|]. intros device.
  apply preserves_bind.
  - apply preserves_map_each. intros klass. apply polarity_bind_characteristic.
  - intros chars h Hh. simpl. apply Forall_app. split; [done|].
    apply Forall_singleton. unfold polarity_ok, js_or. simpl.
    by destruct (truthy (cm_debounce cm)) eqn:Ht; simpl; rewrite ?Ht.
Qed.

Lemma polarity_bind_map groups map : preserves listeners_ok (bind_map groups map).
Proof.
  unfold bind_map. apply preserves_bind; [by intros ??|]. intros _.
  apply preserves_for_each. intros [group capabilities]. unfold bind_group.
  apply preserves_bind; [by intros ??|]. intros _.
  apply preserves_bind.
  - apply preserves_for_fold. intros service prefix. unfold bind_capability.
    destruct (first_of _ _) as [characteristicMaps|]; [|by intros ??].
    apply preserves_bind.
    + unfold resolve_service. destruct service; [by intros ??|].
      apply preserves_bind; [by intros ??|]. intros device.
      apply preserves_bind; [apply polarity_with|]. intros found.
      apply preserves_bind.
      * destruct found; [destruct (map_group map)|];
          repeat (apply preserves_bind; [|intros]);
          try apply polarity_with; by intros ??.
      * intros s. apply preserves_bind; [|by intros ??].
        unfold modify_service.
        destruct (map_onService map); [apply polarity_with | by intros ??].
    + intros s. apply preserves_bind; [|by intros ??].
      apply preserves_for_each. intros cm. apply polarity_bind_characteristicMap.
  - intros service. unfold adaptive_lighting.
    destruct service as [s|]; [|by intros ??].
    destruct (map_adaptiveLighting map); [|by intros ??].
    apply polarity_try; [|by intros ??]. unfold modify_service.
    repeat (apply preserves_bind; [|intros]);
      try apply polarity_with; try (by intros ??).
    match goal with |- preserves _ (if ?b then _ else _) => destruct b end;
      [|by intros ??].
    repeat (apply preserves_bind; [|intros]);
      try apply polarity_with; by intros ??.
Qed.

(** X17.  Whatever the maps and the device, and whether the call succeeds or
    throws part-way, every subscription that [accessorize] leaves in the
    handle is debounced in leading-edge mode exactly when its interval is
    falsy ([0]) and in trailing-edge mode when it is truthy. *)
Theorem accessorize_keeps_polarity (h : MappedDevice) :
  Forall polarity_ok (md_listeners h) →
  Forall polarity_ok (md_listeners (accessorize h).2).
Proof.
  intros Hok. unfold accessorize.
  destruct (md_accessory h) as [a|]; [done|].
  destruct (createAccessory h) as [a|e]; [|done].
  match goal with |- Forall _ (md_listeners (?m ?h0).2) =>
    assert (preserves listeners_ok m) as Hm end.
  { apply preserves_bind; [by intros ??|]. intros groups.
    apply preserves_bind; [by intros ??|]. intros maps.
    apply preserves_bind; [|intros; apply polarity_with].
    apply preserves_for_each. intros map. apply polarity_bind_map. }
  by apply Hm.
Qed.
End Polarity.

Lemma accessorize_keeps_polarity_witness :
  Forall polarity_ok (md_listeners (accessorize (H := Samples.externals) Samples.handle).2).
Proof. apply (accessorize_keeps_polarity Samples.handle). constructor. Defined.

(** ** The application: what reaches the ledger and the bridge *)

(** X18.  [isHomeyDevice] answers [false] for every device, the platform's
    own virtual device included: it compares the boolean [!!driverId] with a
    string. *)
Theorem isHomeyDevice_never (device : option Device) : isHomeyDevice device = false.
Proof. unfold isHomeyDevice, strict_eq. by apply bool_decide_eq_false_2. Qed.

Example isHomeyDevice_on_the_homey_device :
  isHomeyDevice
    (Some (set_dev_name "Homey"
             {| dev_id := "homey"; dev_name := ""; dev_class := "other";
                dev_driverId := Some "homey:manager:vdevice:homey";
                dev_zoneName := None; dev_ready := true; dev_capabilities := [];
                dev_capabilitiesObj := Some ∅; dev_ui := None; dev_requests := [] |}))
  = false.
Proof. reflexivity. Qed.

Section ApplicationMore.
Context `{Externals} `{AppExternals} `{ApiExternals}.

Lemma add_failing (device : option Device) (app : App) :
  isVirtualDevice device = true
  ∨ device = None
  ∨ (∃ d, device = Some d ∧ (dev_ready d = false ∨ dev_capabilitiesObj d = None)) →
  app_exposed (addDeviceToHomeKit device app).2 = app_exposed app
  ∧ app_bridge (addDeviceToHomeKit device app).2 = app_bridge app
  ∧ app_handles (addDeviceToHomeKit device app).2 = app_handles app
  ∧ truthy (addDeviceToHomeKit device app).1 = false.
Proof.
  unfold addDeviceToHomeKit. destruct (isVirtualDevice device) eqn:Hv; [done|].
  intros [?|[->|(d & -> & Hd)]]; [done | done |].
  destruct Hd as [->| ->]; [done|]. by rewrite orb_true_r.
Qed.

Lemma add_passing (d : Device) (app : App) :
  isVirtualDevice (Some d) = false →
  dev_ready d = true →
  is_Some (dev_capabilitiesObj d) →
  let known :=
    if StorageBackedMap.has (app_exposed app) (dev_id d) then app_exposed app
    else StorageBackedMap.set (app_exposed app) (dev_id d)
           (js_nullish (app_newDevicePublish app) (VBool true)) in
  app_exposed (addDeviceToHomeKit (Some d) app).2
  = match mapDevice d with
    | Some _ => known
    | None => StorageBackedMap.set known (dev_id d) (VBool false)
    end.
Proof.
  intros Hv Hready Hobj. unfold addDeviceToHomeKit.
  rewrite Hv, Hready. rewrite bool_decide_eq_true_2 by done. cbn [negb orb].
  destruct (StorageBackedMap.has (app_exposed app) (dev_id d)); cbn [negb];
    (destruct (mapDevice d) as [md|]; [|done]);
    cbn [app_exposed app_say set_app_exposed];
    match goal with |- context [strict_neq ?a ?b] => destruct (strict_neq a b) end;
    try done;
    destruct (accessorize md) as [[a|e] handle]; simpl;
    try destruct (addBridgedAccessory _ a); done.
Qed.

(** X19.  [addDeviceToHomeKit] leaves the ledger, the bridge and the kept
    handles untouched and does not answer [true] when the device is one of
    the application's own, is missing, is not ready, or has no capabilities
    object: such a device is not recorded as decided. *)
Theorem unusable_device_leaves_no_trace (device : option Device) (app : App) :
  isVirtualDevice device = true
  ∨ device = None
  ∨ (∃ d, device = Some d ∧ (dev_ready d = false ∨ dev_capabilitiesObj d = None)) →
  app_exposed (addDeviceToHomeKit device app).2 = app_exposed app
  ∧ app_bridge (addDeviceToHomeKit device app).2 = app_bridge app
  ∧ app_handles (addDeviceToHomeKit device app).2 = app_handles app
  ∧ truthy (addDeviceToHomeKit device app).1 = false.
Proof. apply add_failing. Qed.

(** X20.  A decision that is already in the ledger is never changed by
    adding a mappable device; and when that decision is [false] the device
    is mapped but not bound: the answer is [true] and the bridge and the
    kept handles stay as they are. *)
Theorem known_decision_is_kept (d : Device) (md : MappedDevice) (app : App) :
  isVirtualDevice (Some d) = false →
  dev_ready d = true →
  is_Some (dev_capabilitiesObj d) →
  mapDevice d = Some md →
  StorageBackedMap.has (app_exposed app) (dev_id d) = true →
  app_exposed (addDeviceToHomeKit (Some d) app).2 = app_exposed app
  ∧ (StorageBackedMap.get (app_exposed app) (dev_id d) = VBool false →
       (addDeviceToHomeKit (Some d) app).1 = VBool true
       ∧ app_bridge (addDeviceToHomeKit (Some d) app).2 = app_bridge app
       ∧ app_handles (addDeviceToHomeKit (Some d) app).2 = app_handles app).
Proof.
  intros Hv Hready Hobj Hmap Hhas. split.
  - rewrite add_passing by done. by rewrite Hmap, Hhas.
  - intros Hfalse. unfold addDeviceToHomeKit.
    rewrite Hv, Hready, Hmap, Hhas. rewrite bool_decide_eq_true_2 by done.
    cbn [negb orb app_exposed app_say]. rewrite Hfalse.
    unfold strict_neq. rewrite bool_decide_eq_false_2 by (by intros ?). done.
Qed.

(** X21.  A mappable device that the ledger does not know yet is recorded
    with the user's default for new devices, or [true] when no default is
    set, and the ledger becomes dirty. *)
Theorem new_device_takes_default (d : Device) (md : MappedDevice) (app : App) :
  isVirtualDevice (Some d) = false →
  dev_ready d = true →
  is_Some (dev_capabilitiesObj d) →
  mapDevice d = Some md →
  StorageBackedMap.has (app_exposed app) (dev_id d) = false →
  StorageBackedMap.get (app_exposed (addDeviceToHomeKit (Some d) app).2) (dev_id d)
  = js_nullish (app_newDevicePublish app) (VBool true)
  ∧ StorageBackedMap.isDirty (app_exposed (addDeviceToHomeKit (Some d) app).2) = true.
Proof.
  intros Hv Hready Hobj Hmap Hhas. rewrite add_passing by done.
  rewrite Hmap, Hhas. split.
  - rewrite LedgerFacts.get_set. by case_decide.
  - unfold StorageBackedMap.isDirty, StorageBackedMap.set, StorageBackedMap.get,
      StorageBackedMap.has in *. simpl.
    apply bool_decide_eq_false_1, eq_None_not_Some in Hhas. rewrite Hhas. simpl.
    apply orb_true_iff. right. apply bool_decide_eq_true_2.
    by destruct (app_newDevicePublish app).
Qed.
End ApplicationMore.

Section ApiFacts.
Context `{Externals} `{AppExternals} `{ApiExternals}.

Lemma delete_from_homekit_keeps_ledger (id : string) (app : App) :
  app_exposed (deleteDeviceFromHomeKit id app).2 = app_exposed app.
Proof.
  unfold deleteDeviceFromHomeKit.
  destruct (getAccessoryById id app) as [a|]; [|done].
  destruct (removeBridgedAccessory _ a) as [bridge|e]; [|done].
  destruct (destroyAccessory a) as [[]|e]; [|done].
  by destruct (forgetDevice _ id).
Qed.

(** X22.  [deleteDevice] forgets the decision for the device whether or not
    its accessory could be taken off the bridge: afterwards the ledger has no
    entry for the identifier, every other entry reads as before, the ledger
    is clean, and the persistence sink was called once if the ledger was
    dirty or had the entry and not at all otherwise. *)
Theorem deleteDevice_forgets_decision (id : string) (app : App) :
  StorageBackedMap.has (app_exposed (deleteDevice id app)) id = false
  ∧ (∀ k, k ≠ id →
       StorageBackedMap.get (app_exposed (deleteDevice id app)) k
       = StorageBackedMap.get (app_exposed app) k)
  ∧ StorageBackedMap.isDirty (app_exposed (deleteDevice id app)) = false
  ∧ StorageBackedMap.saved (app_exposed (deleteDevice id app))
    = if StorageBackedMap.isDirty (app_exposed app)
         || StorageBackedMap.has (app_exposed app) id
      then StorageBackedMap.saved (app_exposed app)
             ++ [ base.delete id (StorageBackedMap.entries (app_exposed app)) ]
      else StorageBackedMap.saved (app_exposed app).
Proof.
  unfold deleteDevice. cbn [app_exposed set_app_exposed].
  rewrite delete_from_homekit_keeps_ledger.
  set (m := app_exposed app).
  assert (StorageBackedMap.entries (StorageBackedMap.save (StorageBackedMap.delete m id))
          = base.delete id (StorageBackedMap.entries m)) as Hentries.
  { unfold StorageBackedMap.save. by destruct (StorageBackedMap.dirty _). }
  split_and!.
  - unfold StorageBackedMap.has. rewrite Hentries, lookup_delete_eq.
    apply bool_decide_eq_false_2. by intros [??].
  - intros k Hk. unfold StorageBackedMap.get.
    by rewrite Hentries, lookup_delete_ne.
  - generalize (StorageBackedMap.delete m id). intros [e d s]. by destruct d.
  - unfold StorageBackedMap.save, StorageBackedMap.isDirty.
    cbn [StorageBackedMap.delete StorageBackedMap.dirty StorageBackedMap.saved
         StorageBackedMap.entries].
    by destruct (StorageBackedMap.dirty m || StorageBackedMap.has m id).
Qed.

Lemma add_keeps_known (device : option Device) (app : App) (k : string) :
  StorageBackedMap.has (app_exposed app) k = true →
  StorageBackedMap.has (app_exposed (addDeviceToHomeKit device app).2) k = true.
Proof.
  intros Hk.
  destruct (isVirtualDevice device) eqn:Hv.
  { destruct (add_failing device app) as [-> _]; [by left | done]. }
  destruct device as [d|]; [|destruct (add_failing None app) as [-> _]; auto].
  destruct (dev_ready d) eqn:Hready; last first.
  { destruct (add_failing (Some d) app) as [-> _]; [|done]. right. right. eauto. }
  destruct (dev_capabilitiesObj d) as [o|] eqn:Hobj; last first.
  { destruct (add_failing (Some d) app) as [-> _]; [|done]. right. right. eauto. }
  rewrite add_passing by (done || (rewrite Hobj; by eexists)).
  assert (∀ m id v, StorageBackedMap.has m k = true →
                    StorageBackedMap.has (StorageBackedMap.set m id v) k = true) as Hset.
  { intros m id v. unfold StorageBackedMap.has, StorageBackedMap.set. simpl.
    intros Hm%bool_decide_eq_true_1. apply bool_decide_eq_true_2.
    destruct (decide (id = k)) as [->|?].
    - rewrite lookup_insert_eq. by eexists.
    - by rewrite lookup_insert_ne. }
  destruct (StorageBackedMap.has (app_exposed app) (dev_id d)), (mapDevice d); auto.
Qed.

Lemma add_records_usable (d : Device) (app : App) :
  isVirtualDevice (Some d) = false →
  dev_ready d = true →
  is_Some (dev_capabilitiesObj d) →
  StorageBackedMap.has (app_exposed (addDeviceToHomeKit (Some d) app).2) (dev_id d) = true.
Proof.
  intros Hv Hready Hobj. rewrite add_passing by done.
  assert (∀ m v, StorageBackedMap.has (StorageBackedMap.set m (dev_id d) v) (dev_id d)
                 = true) as Hset.
  { intros m v. unfold StorageBackedMap.has, StorageBackedMap.set. simpl.
    apply bool_decide_eq_true_2. rewrite lookup_insert_eq. by eexists. }
  destruct (StorageBackedMap.has (app_exposed app) (dev_id d)) eqn:Hhas,
    (mapDevice d); auto.
Qed.

Lemma add_all_keeps_known (devices : list Device) : ∀ (app : App) (k : string),
  StorageBackedMap.has (app_exposed app) k = true →
  StorageBackedMap.has
    (app_exposed (foldl (λ app device, (addDeviceToHomeKit (Some device) app).2)
                        app devices)) k = true.
Proof.
  induction devices as [|d devices IH]; intros app k Hk; simpl; [done|].
  by apply IH, add_keeps_known.
Qed.

(** X23.  After [mapDevices] the ledger is clean, it still knows every
    identifier it knew before, and it has a decision for every device of the
    list that is not the application's own, is ready and has a capabilities
    object, mappable or not. *)
Theorem mapDevices_decides_all (devices : list Device) (app : App) :
  StorageBackedMap.isDirty (app_exposed (mapDevices devices app)) = false
  ∧ (∀ k, StorageBackedMap.has (app_exposed app) k = true →
          StorageBackedMap.has (app_exposed (mapDevices devices app)) k = true)
  ∧ (∀ d, d ∈ devices →
          isVirtualDevice (Some d) = false →
          dev_ready d = true →
          is_Some (dev_capabilitiesObj d) →
          StorageBackedMap.has (app_exposed (mapDevices devices app)) (dev_id d) = true).
Proof.
  unfold mapDevices. cbn [app_exposed set_app_exposed].
  assert (∀ m k, StorageBackedMap.has (StorageBackedMap.save m) k
                 = StorageBackedMap.has m k) as Hsave.
  { intros m k. unfold StorageBackedMap.save. by destruct (StorageBackedMap.dirty m). }
  split_and!.
  - match goal with |- context [StorageBackedMap.save ?m] => generalize m end.
    intros [e d s]. by destruct d.
  - intros k Hk. rewrite Hsave. by apply add_all_keeps_known.
  - intros d Hd Hv Hready Hobj. rewrite Hsave. revert app.
    induction devices as [|d0 devices IH]; intros app; [by apply elem_of_nil in Hd|].
    simpl. apply elem_of_cons in Hd as [->|Hd].
    + by apply add_all_keeps_known, add_records_usable.
    + by apply IH.
Qed.
End ApiFacts.

Section ApiOutcomes.
Context `{Externals} `{AppExternals} `{ApiExternals}.

Lemma set_and_save_ledger (id : string) (v : jsval) (app : App) :
  StorageBackedMap.get (app_exposed (set_and_save id v app)) id = v
  ∧ StorageBackedMap.isDirty (app_exposed (set_and_save id v app)) = false
  ∧ (v ≠ VUndefined ∨ StorageBackedMap.has (app_exposed app) id = true →
     StorageBackedMap.has (app_exposed (set_and_save id v app)) id = true)
  ∧ app_bridge (set_and_save id v app) = app_bridge app.
Proof.
  unfold set_and_save. cbn [app_exposed set_app_exposed app_bridge].
  assert (∀ m, StorageBackedMap.entries (StorageBackedMap.save m)
               = StorageBackedMap.entries m
               ∧ StorageBackedMap.dirty (StorageBackedMap.save m) = false) as Hsave.
  { intros [e d s]. by destruct d. }
  destruct (Hsave (StorageBackedMap.set (app_exposed app) id v)) as [He Hd].
  unfold StorageBackedMap.get, StorageBackedMap.has, StorageBackedMap.isDirty.
  rewrite He, Hd. simpl. rewrite lookup_insert_eq. split_and!; [done | done | | done].
  intros _. apply bool_decide_eq_true_2. by eexists.
Qed.

Lemma add_truthy (d : Device) (app : App) :
  truthy (addDeviceToHomeKit (Some d) app).1 = true →
  isVirtualDevice (Some d) = false
  ∧ dev_ready d = true
  ∧ is_Some (dev_capabilitiesObj d)
  ∧ is_Some (mapDevice d).
Proof.
  unfold addDeviceToHomeKit.
  destruct (isVirtualDevice (Some d)); [done|].
  destruct (dev_ready d); [|done].
  destruct (dev_capabilitiesObj d) as [o|]; [|done].
  rewrite bool_decide_eq_true_2 by (by eexists). cbn [negb orb].
  destruct (mapDevice d) as [md|]; [|done].
  intros _. split_and!; by eauto.
Qed.

(** X24.  [api.exposeDevice] always leaves the ledger saved.  When it
    answers ['ok'] the decision for the device is [true]; when the device is
    unavailable the decision is recorded as [true] although the call fails
    and the bridge is not touched; and when adding an available device
    fails, the decision reads again as it did before the call. *)
Theorem exposeDevice_outcomes (id : string) (f : FoundDevice) (app : App) :
  dev_id (found_device f) = id →
  StorageBackedMap.isDirty (app_exposed (exposeDevice id (Some f) app).2) = false
  ∧ ((exposeDevice id (Some f) app).1 = Ok "ok" →
       StorageBackedMap.get (app_exposed (exposeDevice id (Some f) app).2) id = VBool true)
  ∧ (found_available f = false →
       (exposeDevice id (Some f) app).1 = Throw (UserError "API_DEVICE_UNAVAILABLE")
       ∧ StorageBackedMap.get (app_exposed (exposeDevice id (Some f) app).2) id
         = VBool true
       ∧ app_bridge (exposeDevice id (Some f) app).2 = app_bridge app)
  ∧ (found_available f = true →
       ∀ e, (exposeDevice id (Some f) app).1 = Throw e →
            StorageBackedMap.get (app_exposed (exposeDevice id (Some f) app).2) id
            = StorageBackedMap.get (app_exposed app) id).
Proof.
  intros Hid. unfold exposeDevice.
  destruct (set_and_save_ledger id (VBool true) app) as (Hget1 & Hclean1 & Hhas1 & Hbridge1).
  destruct (found_available f); cbn [negb]; last first.
  { cbn [fst snd]. split_and!; [done | done | done | done]. }
  set (app1 := set_and_save id (VBool true) app) in *.
  destruct (addDeviceToHomeKit (Some (found_device f)) app1) as [added app2] eqn:Hadd.
  destruct (truthy added) eqn:Htruthy; cbn [negb].
  - assert (app_exposed app2 = app_exposed app1) as Hsame.
    { assert (app2 = (addDeviceToHomeKit (Some (found_device f)) app1).2) as ->
        by by rewrite Hadd.
      assert (truthy (addDeviceToHomeKit (Some (found_device f)) app1).1 = true) as Ht
        by by rewrite Hadd.
      apply add_truthy in Ht as (Hv & Hready & Hobj & [md Hmd]).
      rewrite add_passing by done. rewrite Hmd, Hid.
      rewrite Hhas1; [done|]. by left. }
    cbn [fst snd]. rewrite Hsame. split_and!; [done | done | done |].
    intros _ e [=].
  - destruct (set_and_save_ledger id (StorageBackedMap.get (app_exposed app) id) app2)
      as (Hget3 & Hclean3 & _).
    case_bool_decide; cbn [fst snd]; (split_and!; [done | done | done |]); by intros _ e _.
Qed.

(** X25.  [api.unexposeDevice] either answers ['ok'], with the decision for
    the device [false] and the ledger saved, or fails because the accessory
    is on the bridge and could not be taken off it, and then the ledger is
    exactly as it was. *)
Theorem unexposeDevice_outcomes (id : string) (app : App) :
  ((unexposeDevice id app).1 = Ok "ok"
   ∧ StorageBackedMap.get (app_exposed (unexposeDevice id app).2) id = VBool false
   ∧ StorageBackedMap.isDirty (app_exposed (unexposeDevice id app).2) = false)
  ∨ ((unexposeDevice id app).1 = Throw (UserError "API_DELETE_DEVICE_FAILED")
     ∧ is_Some (getAccessoryById id app)
     ∧ app_exposed (unexposeDevice id app).2 = app_exposed app).
Proof.
  unfold unexposeDevice.
  destruct (getAccessoryById id app) as [a|] eqn:Hfound.
  - pose proof (delete_from_homekit_keeps_ledger id app) as Hkeep.
    destruct (deleteDeviceFromHomeKit id app) as [[|] app1]; cbn [fst snd] in *.
    + left. destruct (set_and_save_ledger id (VBool false) app1) as (? & ? & _). done.
    + right. split_and!; [done | by eexists | done].
  - left. cbn [fst snd].
    destruct (set_and_save_ledger id (VBool false) app) as (? & ? & _). done.
Qed.

(** X26.  [api.getDevices] lists every device that is not one of the
    application's own, in the order given (the test that should leave out
    the platform's own device never holds), and reports a device as exposed
    unless the ledger holds [false] for it: a device without a decision is
    reported as exposed. *)
Theorem api_getDevices_lists_all_but_own (devices : list Device) (app : App) :
  state_device <$> api_getDevices devices app
  = filter (λ d, isVirtualDevice (Some d) = false) devices
  ∧ ∀ s, s ∈ api_getDevices devices app →
         state_supported s = canMapDevice (state_device s)
         ∧ (StorageBackedMap.has (app_exposed app) (dev_id (state_device s)) = false →
            state_exposed s = true)
         ∧ (state_exposed s = false
            ↔ StorageBackedMap.get (app_exposed app) (dev_id (state_device s))
              = VBool false).
Proof.
  unfold api_getDevices. split.
  - induction devices as [|d l IH]; [done|].
    rewrite !filter_cons.
    assert (isHomeyDevice (Some d) = false) as ->
      by (unfold isHomeyDevice, strict_eq; by apply bool_decide_eq_false_2).
    destruct (isVirtualDevice (Some d)) eqn:Hv; cbn [negb andb].
    + rewrite !decide_False by done. exact IH.
    + rewrite !decide_True by done. rewrite !fmap_cons. cbn [state_device].
      f_equal. exact IH.
  - intros s (d & -> & _)%list_elem_of_fmap. simpl. split_and!; [done | |].
    + unfold StorageBackedMap.has, StorageBackedMap.get.
      intros Hno%bool_decide_eq_false_1. apply eq_None_not_Some in Hno. by rewrite Hno.
    + unfold strict_neq. rewrite bool_decide_eq_false. split; [apply dec_stable | by intros ??].
Qed.

(** X27.  The accessory that [createAccessory] makes for a device is the
    kind [getAccessoryById] looks for: once it is on the bridge, a lookup by
    the device's identifier finds an accessory with its UUID. *)
Theorem created_accessory_is_found (h : MappedDevice) (a : Accessory) (app : App) :
  createAccessory h = Ok a →
  a ∈ app_bridge app →
  ∃ r, getAccessoryById (dev_id (md_device h)) app = Some r ∧ acc_UUID r = acc_UUID a.
Proof.
  intros Hcreate Hin.
  destruct (createAccessory_ok h) as (a' & Ha' & Huuid & _).
  rewrite Hcreate in Ha'. injection Ha' as <-.
  unfold getAccessoryById.
  destruct (list_find_elem_of (λ r, acc_UUID r = uuid_generate (dev_id (md_device h)))
              (app_bridge app) a Hin Huuid) as [[i r] Hfind].
  rewrite Hfind. exists r. split; [done|].
  apply list_find_Some in Hfind as (_ & Hr & _). congruence.
Qed.
End ApiOutcomes.

(** X28.  The category of a handle is the category of its first map whenever
    that is not [OTHER] (also when the first map has none): maps added later
    are appended in order and never change it. *)
Theorem addMap_keeps_first_category (OTHER : jsval) (upperFirst : string → string)
  (device : Device) (map : CapabilityMap) (maps : list CapabilityMap) :
  map_category map ≠ OTHER →
  md_category (foldl (λ h m, addMap OTHER m h) (new_MappedDevice upperFirst device map) maps)
  = map_category map
  ∧ md_maps (foldl (λ h m, addMap OTHER m h) (new_MappedDevice upperFirst device map) maps)
    = map :: maps.
Proof.
  intros Hne.
  assert (∀ h, md_category h ≠ OTHER →
            md_category (foldl (λ h m, addMap OTHER m h) h maps) = md_category h
            ∧ md_maps (foldl (λ h m, addMap OTHER m h) h maps) = md_maps h ++ maps) as Hfold.
  { induction maps as [|m maps IH]; intros h Hh; simpl.
    - by rewrite app_nil_r.
    - destruct (IH (addMap OTHER m h)) as [-> ->].
      + simpl. by rewrite decide_False.
      + simpl. rewrite decide_False by done. by rewrite <- app_assoc. }
  by destruct (Hfold (new_MappedDevice upperFirst device map) Hne) as [-> ->].
Qed.

Lemma addMap_keeps_device (OTHER : jsval) (maps : list CapabilityMap) : ∀ h,
  md_device (foldl (λ h m, addMap OTHER m h) h maps) = md_device h
  ∧ md_class (foldl (λ h m, addMap OTHER m h) h maps) = md_class h
  ∧ md_capabilities (foldl (λ h m, addMap OTHER m h) h maps) = md_capabilities h.
Proof.
  induction maps as [|m maps IH]; intros h; simpl; [done|].
  by destruct (IH (addMap OTHER m h)) as (-> & -> & ->).
Qed.

(** X29.  The device of a handle always has a name: the constructor names a
    nameless device after its class, a device that has a name is kept as it
    is, and neither the name nor the class and capabilities that the handle
    answers change when maps are added. *)
Theorem handle_device_is_named (OTHER : jsval) (upperFirst : string → string)
  (device : Device) (map : CapabilityMap) (maps : list CapabilityMap) :
  let h := foldl (λ h m, addMap OTHER m h) (new_MappedDevice upperFirst device map) maps in
  dev_name (getDevice h) ≠ ""
  ∧ (dev_name device ≠ "" → getDevice h = device)
  ∧ (dev_name device = "" →
       dev_name (getDevice h) = upperFirst (dev_class device) +:+ " Device")
  ∧ dev_id (getDevice h) = dev_id device
  ∧ getClass h = dev_class device
  ∧ getCapabilities h = dev_capabilities device.
Proof.
  intros h. unfold getDevice, getClass, getCapabilities, h.
  destruct (addMap_keeps_device OTHER maps (new_MappedDevice upperFirst device map))
    as (-> & -> & ->).
  unfold new_MappedDevice. simpl. split_and!; try done.
  - case_decide; [|done]. by destruct (upperFirst (dev_class device)).
  - intros Hname. rewrite decide_False by done. by destruct device.
  - intros Hname. by rewrite decide_True.
Qed.

(** ** The further properties on the samples *)

Section FurtherOnSamples.
Import Samples MoreSamples.

Lemma flattenGroups_disjoint_unchanged_witness :
  obj_get (flattenGroups [ ("a", [ "onoff"; "valueOf" ]); ("", [ "dim" ]) ]) "a"
  = if decide ("a" = "__proto__") then None
    else filter (λ c, c ∉ Object_prototype)
           <$> obj_get [ ("a", [ "onoff"; "valueOf" ]); ("", [ "dim" ]) ] "a".
Proof.
  apply (flattenGroups_disjoint_unchanged
           [ ("a", [ "onoff"; "valueOf" ]); ("", [ "dim" ]) ] "a").
  - compute_done.
  - intros c g1 g2. unfold caps_of. simpl.
    repeat destruct (decide _); simplify_eq/=;
      rewrite ?elem_of_cons, ?elem_of_nil; naive_solver.
Defined.

Lemma failing_setter_reaches_nothing_witness :
  run_onSet refusing (VNum 75) (Ok ()) bound = (Throw (UserError "out of range"), bound).
Proof.
  apply (failing_setter_reaches_nothing refusing (VNum 75) (Ok ())
           (UserError "out of range") bound).
  reflexivity.
Defined.

Lemma read_after_write_witness :
  ∃ h',
    run_onSet dim_write (VNum 75) (Throw (UserError "rejected")) bound = (Ok (), h')
    ∧ run_onGet dim_read h'
      = res_bind (to_percent (VNum 7500) {| ctx_device := md_device h';
                                            ctx_service := 1;
                                            ctx_capability := None;
                                            ctx_characteristic := "Brightness" |})
                 (validateUserInput "Brightness").
Proof.
  apply (read_after_write dim_write dim_read (VNum 75) (VNum 7500)
           (Throw (UserError "rejected")) bound); [reflexivity | reflexivity | done].
Defined.

Lemma no_value_skips_characteristics_witness :
  ∃ h',
    capability_update silent (VNum 5000) bound = (Ok (), h')
    ∧ md_accessory h' = md_accessory bound
    ∧ capability_value (md_device h') "dim" = VNum 5000.
Proof.
  apply (no_value_skips_characteristics silent (λ _ _, Ok NO_VALUE) (VNum 5000) bound);
    [reflexivity | by intros].
Defined.

Lemma missing_getter_loses_update_witness :
  ∃ e h',
    capability_update getterless (VNum 5000) bound = (Throw e, h')
    ∧ md_accessory h' = md_accessory bound
    ∧ md_device h' = md_device bound
    ∧ md_log h' = md_log bound ++ [ (0, LogCapabilityUpdate "dim.x" (VNum 5000)) ].
Proof.
  apply (missing_getter_loses_update getterless (VNum 5000) bound); [reflexivity | done].
Defined.

Lemma unusable_device_leaves_no_trace_witness :
  app_exposed (addDeviceToHomeKit None app).2 = app_exposed app
  ∧ app_bridge (addDeviceToHomeKit None app).2 = app_bridge app
  ∧ app_handles (addDeviceToHomeKit None app).2 = app_handles app
  ∧ truthy (addDeviceToHomeKit None app).1 = false.
Proof. apply (unusable_device_leaves_no_trace None app). right. by left. Defined.

Lemma known_decision_is_kept_witness :
  app_exposed (addDeviceToHomeKit (H0 := mappable) (Some dev1) opted_out).2
  = app_exposed opted_out
  ∧ (StorageBackedMap.get (app_exposed opted_out) "dev-1" = VBool false →
       (addDeviceToHomeKit (H0 := mappable) (Some dev1) opted_out).1 = VBool true
       ∧ app_bridge (addDeviceToHomeKit (H0 := mappable) (Some dev1) opted_out).2
         = app_bridge opted_out
       ∧ app_handles (addDeviceToHomeKit (H0 := mappable) (Some dev1) opted_out).2
         = app_handles opted_out).
Proof.
  apply (known_decision_is_kept (H0 := mappable) dev1
           (new_MappedDevice (λ s, s) dev1 light) opted_out);
    [reflexivity | reflexivity | by eexists | reflexivity | reflexivity].
Defined.

Lemma new_device_takes_default_witness :
  StorageBackedMap.get
    (app_exposed (addDeviceToHomeKit (H0 := mappable) (Some dev1) fresh).2) "dev-1"
  = VBool true
  ∧ StorageBackedMap.isDirty
      (app_exposed (addDeviceToHomeKit (H0 := mappable) (Some dev1) fresh).2) = true.
Proof.
  apply (new_device_takes_default (H0 := mappable) dev1
           (new_MappedDevice (λ s, s) dev1 light) fresh);
    [reflexivity | reflexivity | by eexists | reflexivity | reflexivity].
Defined.

Lemma exposeDevice_outcomes_witness :
  StorageBackedMap.isDirty
    (app_exposed (exposeDevice (H0 := mappable) "dev-1" (Some found) fresh).2) = false
  ∧ ((exposeDevice (H0 := mappable) "dev-1" (Some found) fresh).1 = Ok "ok" →
       StorageBackedMap.get
         (app_exposed (exposeDevice (H0 := mappable) "dev-1" (Some found) fresh).2) "dev-1"
       = VBool true)
  ∧ (found_available found = false →
       (exposeDevice (H0 := mappable) "dev-1" (Some found) fresh).1
       = Throw (UserError "API_DEVICE_UNAVAILABLE")
       ∧ StorageBackedMap.get
           (app_exposed (exposeDevice (H0 := mappable) "dev-1" (Some found) fresh).2)
           "dev-1"
         = VBool true
       ∧ app_bridge (exposeDevice (H0 := mappable) "dev-1" (Some found) fresh).2
         = app_bridge fresh)
  ∧ (found_available found = true →
       ∀ e, (exposeDevice (H0 := mappable) "dev-1" (Some found) fresh).1 = Throw e →
            StorageBackedMap.get
              (app_exposed (exposeDevice (H0 := mappable) "dev-1" (Some found) fresh).2)
              "dev-1"
            = StorageBackedMap.get (app_exposed fresh) "dev-1").
Proof.
  apply (exposeDevice_outcomes (H0 := mappable) "dev-1" found fresh). reflexivity.
Defined.

Example exposeDevice_scenario :
  (exposeDevice (H0 := mappable) "dev-1" (Some found) fresh).1 = Ok "ok"
  ∧ length (app_bridge (exposeDevice (H0 := mappable) "dev-1" (Some found) fresh).2) = 1
  ∧ (exposeDevice (H0 := unmappable) "dev-1" (Some found) fresh).1
    = Throw (UserError "API_ADD_DEVICE_FAILED")
  ∧ StorageBackedMap.entries
      (app_exposed (exposeDevice (H0 := unmappable) "dev-1" (Some found) fresh).2)
    = {[ "dev-1" := VUndefined ]}.
Proof. split_and!; by vm_compute. Qed.

Lemma created_accessory_is_found_witness :
  ∃ r, getAccessoryById "dev-1" bridged = Some r ∧ acc_UUID r = acc_UUID created.
Proof.
  apply (created_accessory_is_found handle created bridged); [reflexivity | by left].
Defined.

Lemma addMap_keeps_first_category_witness :
  md_category (foldl (λ h m, addMap (VNum 1) m h)
                     (new_MappedDevice (λ s, s) dev1 light) [ OnOff_only ])
  = map_category light
  ∧ md_maps (foldl (λ h m, addMap (VNum 1) m h)
                   (new_MappedDevice (λ s, s) dev1 light) [ OnOff_only ])
    = light :: [ OnOff_only ].
Proof.
  apply (addMap_keeps_first_category (VNum 1) (λ s, s) dev1 light [ OnOff_only ]). done.
Defined.
End FurtherOnSamples.
